(** * LunneWeb air hockey: the server-side [World] class

    A shallow embedding of the match orchestrator (the class [World]) and of
    the collaborators it drives: the p2 physics world, the [Player], [Ball]
    and [Team] entities and the [TypedEvent] channel.

    Conventions.
    - A JavaScript [number] is a rational [Q]; every constant of the class
      (1200, 600, 4, 2, 1.25, 10, 40, ...) and every quotient taken of them is
      exactly representable, and numeric facts are stated up to [Qeq].
    - Objects compared with [===] carry an identity: a [p2.Body] is its index
      in the store of body objects, a [Team] carries a reference number.
    - A method is a function in the monad [M]: it reads and updates the
      [World], may throw (a [TypeError] on an [undefined] array slot) and
      writes what leaves the class: log lines and calls of the listeners of
      [goalEmitter].  What a listener does when it is called belongs to the
      session layer and is not part of the class. *)

From Stdlib Require Import QArith ZArith String List.
From stdpp Require Import base option list strings.

(** ** Shared typings *)

Module Shared.

Definition Id : Type := string.

Definition Color : Type := Z.

Record Vector2D : Type := mkVector2D { x : Q; y : Q }.

Record Size : Type := mkSize { width : Q; height : Q }.

Definition zero : Vector2D := {| x := 0; y := 0 |}.

End Shared.

(** ** The p2 physics engine (external library)

    Only what [World] touches is kept: a body's position and velocity, the
    list of bodies added to a world, the contact material and whether a
    [beginContact] listener is installed.  Shapes, angles, masses and body
    types are written once while the arena is built and are read by no method
    modelled here. *)

Module P2.

Abbreviation BodyId := nat (only parsing).

Record Body : Type := mkBody {
  position : Shared.Vector2D;
  velocity : Shared.Vector2D;
}.

(** [new p2.Body({ position })]; a body is created at rest. *)
Definition newBody (pos : Shared.Vector2D) : Body :=
  {| position := pos; velocity := Shared.zero |}.

Definition set_position (pos : Shared.Vector2D) (b : Body) : Body :=
  {| position := pos; velocity := velocity b |}.

Definition set_velocity (v : Shared.Vector2D) (b : Body) : Body :=
  {| position := position b; velocity := v |}.

(** The store of body objects; a reference is an index into it. *)
Abbreviation Store := (list Body) (only parsing).

Record World : Type := mkWorld {
  bodies : list BodyId;
  gravity : Shared.Vector2D;
  restitution : Q;
  friction : Q;
  beginContact : bool;
}.

(** [new p2.World({ gravity })], with p2's default contact material. *)
Definition newWorld (g : Shared.Vector2D) : World :=
  {| bodies := []; gravity := g; restitution := 0; friction := 0.3;
     beginContact := false |}.

Definition set_restitution (r : Q) (w : World) : World :=
  {| bodies := bodies w; gravity := gravity w; restitution := r;
     friction := friction w; beginContact := beginContact w |}.

Definition set_friction (f : Q) (w : World) : World :=
  {| bodies := bodies w; gravity := gravity w; restitution := restitution w;
     friction := f; beginContact := beginContact w |}.

(** [world.addBody(body)] *)
Definition addBody (b : BodyId) (w : World) : World :=
  {| bodies := bodies w ++ [b]; gravity := gravity w;
     restitution := restitution w; friction := friction w;
     beginContact := beginContact w |}.

(** [world.on('beginContact', listener, context)] *)
Definition on_beginContact (w : World) : World :=
  {| bodies := bodies w; gravity := gravity w; restitution := restitution w;
     friction := friction w; beginContact := true |}.

(** [world.clear()]: every body is removed from the world.  The body
    objects themselves stay alive for whoever still holds a reference.  No
    statement below reads the configuration of a cleared engine. *)
Definition clear (w : World) : World :=
  {| bodies := []; gravity := gravity w; restitution := restitution w;
     friction := friction w; beginContact := beginContact w |}.

(** [new p2.Body(...)]: the fresh object is the next slot of the store. *)
Definition alloc (b : Body) (st : Store) : BodyId * Store :=
  (length st, st ++ [b]).

(** What one call of [world.step] does, seen from outside the engine: a
    finite succession of updates of the bodies of the world and of
    [beginContact] notifications.  The engine decides which; the model is
    parametric in it. *)
Inductive StepAction : Type :=
| Integrate (f : BodyId -> Body -> Body)
| BeginContact (bodyA bodyB : BodyId).

Record ContactEvent : Type := mkContactEvent {
  bodyA : BodyId;
  bodyB : BodyId;
}.

(** An engine update reaches the bodies of the world and no other. *)
Definition integrate (f : BodyId -> Body -> Body) (w : World) (st : Store)
  : Store :=
  foldl (fun s i => alter (f i) i s) st (bodies w).

(** A contact is reported between two bodies of the world. *)
Definition inWorld (w : World) (a b : BodyId) : bool :=
  bool_decide (a ∈ bodies w) && bool_decide (b ∈ bodies w).

End P2.

(** ** Entities *)

(** What the entity classes fix and [src/] does not show: the diameter of a
    player, how a player's pending direction becomes a velocity, and how the
    ball's velocity is capped. *)
Class Entities : Type := {
  Player_DIAMETER : Q;
  Player_applyDirection :
    Shared.Vector2D -> Shared.Vector2D -> Shared.Vector2D;
  Ball_constrainVelocity : Shared.Vector2D -> Shared.Vector2D;
}.

Module Team.

Inductive Side : Type := Left | Right.

Definition Side_toString (s : Side) : string :=
  match s with Left => "left" | Right => "right" end.

(** Modelled from the spec: the class [Team] ([./team]) is a data holder
    for a side.  [ref] is the identity of the object, which [===]
    compares. *)
Record Team : Type := mkTeam { ref : nat; TeamSide : Side }.

(** [a === b] on two [Team] references *)
Definition same (a b : Team) : bool := Nat.eqb (ref a) (ref b).

End Team.

Module Player.

(** Modelled from the spec: the class [Player] ([./player]) holds an
    identifier, a colour, a team reference, the pending movement direction
    and the readiness flag; position and velocity are those of its physics
    body. *)
Record Player : Type := mkPlayer {
  socketId : Shared.Id;
  color : Shared.Color;
  team : Team.Team;
  body : P2.BodyId;
  direction : Shared.Vector2D;
  isReady : bool;
}.

Definition set_isReady (r : bool) (p : Player) : Player :=
  {| socketId := socketId p; color := color p; team := team p;
     body := body p; direction := direction p; isReady := r |}.

(** Modelled from the spec: [setDirection] stores the desired movement; it
    reaches the velocity on the next pre-step update only. *)
Definition setDirection (d : Shared.Vector2D) (p : Player) : Player :=
  {| socketId := socketId p; color := color p; team := team p;
     body := body p; direction := d; isReady := isReady p |}.

Section WithEntities.
Context `{Entities}.

(** Modelled from the spec: the constructor creates the body in the
    given physics world; the player is not ready and has no pending
    direction. *)
Definition new (pw : P2.World) (st : P2.Store) (id : Shared.Id)
    (c : Shared.Color) (t : Team.Team) : Player * P2.World * P2.Store :=
  let '(b, st1) := P2.alloc (P2.newBody Shared.zero) st in
  ({| socketId := id; color := c; team := t; body := b;
      direction := Shared.zero; isReady := false |},
   P2.addBody b pw, st1).

(** Modelled from the spec: [onUpdate] applies the pending direction to
    the velocity of the body. *)
Definition onUpdate (p : Player) (st : P2.Store) : P2.Store :=
  alter (fun b => P2.set_velocity
                    (Player_applyDirection (direction p) (P2.velocity b)) b)
        (body p) st.

(** Modelled from the spec: [setPosition] teleports the body and leaves
    it at rest. *)
Definition setPosition (pos : Shared.Vector2D) (p : Player)
    (st : P2.Store) : P2.Store :=
  alter (fun _ => P2.newBody pos) (body p) st.

End WithEntities.

End Player.

Module Ball.

(** Modelled from the spec: the class [Ball] ([./ball]) is bound to one
    physics body. *)
Record Ball : Type := mkBall { body : P2.BodyId }.

Section WithEntities.
Context `{Entities}.

(** Modelled from the spec: the constructor creates the body in the
    given physics world. *)
Definition new (pw : P2.World) (st : P2.Store)
  : Ball * P2.World * P2.Store :=
  let '(b, st1) := P2.alloc (P2.newBody Shared.zero) st in
  ({| body := b |}, P2.addBody b pw, st1).

(** Modelled from the spec: [onUpdate] clamps the velocity to the
    maximum. *)
Definition onUpdate (b : Ball) (st : P2.Store) : P2.Store :=
  alter (fun o => P2.set_velocity (Ball_constrainVelocity (P2.velocity o)) o)
        (body b) st.

(** Modelled from the spec: [resetVelocity(signedSpeed?)] sets the
    velocity to zero, or to a horizontal impulse of the given signed
    speed. *)
Definition resetVelocity (signedSpeed : option Q) (b : Ball)
    (st : P2.Store) : P2.Store :=
  let v := match signedSpeed with
           | Some s => {| Shared.x := s; Shared.y := 0 |}
           | None => Shared.zero
           end in
  alter (P2.set_velocity v) (body b) st.

(** Modelled from the spec: [setPosition] moves the body. *)
Definition setPosition (pos : Shared.Vector2D) (b : Ball)
    (st : P2.Store) : P2.Store :=
  alter (P2.set_position pos) (body b) st.

End WithEntities.

End Ball.

(** ** Models *)

Record IGoal : Type := mkIGoal {
  back : P2.BodyId;
  bottom : P2.BodyId;
  top : P2.BodyId;
  goal : P2.BodyId;
}.

Module ITeams.

Record ITeams : Type := mkITeams {
  teamLeft : Team.Team;
  teamRight : Team.Team;
}.

End ITeams.

Record IGoalEvent : Type := mkIGoalEvent {
  allTeams : ITeams.ITeams;
  teamThatScored : Team.Team;
}.

(** ** The event channel *)

Module TypedEvent.

(** A listener is a closure of the session layer; the model keeps its
    registration handle. *)
Definition Listener : Type := nat.

(** Modelled from the spec: the class [TypedEvent] ([../common]) keeps its
    handlers in registration order. *)
Record TypedEvent : Type := mkTypedEvent { listeners : list Listener }.

Definition new : TypedEvent := {| listeners := [] |}.

(** Modelled from the spec: [on(handler)] *)
Definition on (h : Listener) (e : TypedEvent) : TypedEvent :=
  {| listeners := listeners e ++ [h] |}.

(** Modelled from the spec: [removeAllListeners()] *)
Definition removeAllListeners (e : TypedEvent) : TypedEvent :=
  {| listeners := [] |}.

End TypedEvent.

(** ** The [World] class *)

Record World : Type := mkWorldState {
  goalEmitter : TypedEvent.TypedEvent;
  goals : list IGoal;
  p2World : P2.World;
  players : list Player.Player;
  ball : Ball.Ball;
  teamLeft : Team.Team;
  teamRight : Team.Team;
  (** the body objects the references above point to *)
  heap : P2.Store;
}.

Definition BALL_INIT_VELOCITY : Q := 40.

Definition GAME_SIZE : Shared.Size :=
  {| Shared.width := 1200; Shared.height := 600 |}.

Definition set_goalEmitter (e : TypedEvent.TypedEvent) (w : World) : World :=
  {| goalEmitter := e; goals := goals w; p2World := p2World w;
     players := players w; ball := ball w; teamLeft := teamLeft w;
     teamRight := teamRight w; heap := heap w |}.

Definition set_p2World (pw : P2.World) (w : World) : World :=
  {| goalEmitter := goalEmitter w; goals := goals w; p2World := pw;
     players := players w; ball := ball w; teamLeft := teamLeft w;
     teamRight := teamRight w; heap := heap w |}.

Definition set_players (ps : list Player.Player) (w : World) : World :=
  {| goalEmitter := goalEmitter w; goals := goals w; p2World := p2World w;
     players := ps; ball := ball w; teamLeft := teamLeft w;
     teamRight := teamRight w; heap := heap w |}.

Definition set_heap (st : P2.Store) (w : World) : World :=
  {| goalEmitter := goalEmitter w; goals := goals w; p2World := p2World w;
     players := players w; ball := ball w; teamLeft := teamLeft w;
     teamRight := teamRight w; heap := st |}.

(** What a method sends out of the class. *)
Inductive Output : Type :=
| LogInfo (msg : string)
| LogDebug (msg : string)
  (** [goalEmitter.emit(ev)], with the listeners it called, in call order *)
| GoalEmit (ev : IGoalEvent) (called : list TypedEvent.Listener).

(** A method body: [None] is a thrown exception. *)
Definition M (A : Type) : Type := World -> option (A * World * list Output).

Definition ret {A : Type} (a : A) : M A := fun w => Some (a, w, []).

Definition bind {A B : Type} (m : M A) (k : A -> M B) : M B := fun w =>
  match m w with
  | None => None
  | Some (a, w1, out1) =>
      match k a w1 with
      | None => None
      | Some (b, w2, out2) => Some (b, w2, out1 ++ out2)
      end
  end.

Notation "'let!' x ':=' m 'in' k" := (bind m (fun x => k))
  (at level 10, x name, m at level 100, k at level 200).
Notation "m ';>' k" := (bind m (fun _ => k))
  (at level 100, k at level 200, right associativity).

Definition throw {A : Type} : M A := fun _ => None.

Definition gets {A : Type} (f : World -> A) : M A := fun w => Some (f w, w, []).

Definition modify (f : World -> World) : M unit := fun w => Some (tt, f w, []).

Definition write (o : Output) : M unit := fun w => Some (tt, w, [o]).

(** [xs[i]] followed by a member access: [undefined] throws. *)
Definition index {A : Type} (xs : list A) (i : nat) : M A :=
  match xs !! i with
  | Some a => ret a
  | None => throw
  end.

(** [xs.forEach(f)] *)
Fixpoint forEach {A : Type} (xs : list A) (f : A -> M unit) : M unit :=
  match xs with
  | [] => ret tt
  | a :: rest => f a ;> forEach rest f
  end.

(** a method of an entity, acting on the body it is bound to *)
Definition onBodies (f : P2.Store -> P2.Store) : M unit :=
  modify (fun w => set_heap (f (heap w)) w).

Record IPlayerDirectionUpdate : Type := mkIPlayerDirectionUpdate {
  data_direction : Shared.Vector2D;
}.

Section WorldMethods.
Context `{Entities}.

Definition goalEmitter_emit (ev : IGoalEvent) : M unit :=
  let! e := gets goalEmitter in
  write (GoalEmit ev (TypedEvent.listeners e)).

(** [world.goalEmitter.on(h)], from the session layer *)
Definition goalEmitter_on (h : TypedEvent.Listener) : M unit :=
  modify (fun w => set_goalEmitter (TypedEvent.on h (goalEmitter w)) w).

Definition getTeams : M ITeams.ITeams :=
  let! l := gets teamLeft in
  let! r := gets teamRight in
  ret {| ITeams.teamLeft := l; ITeams.teamRight := r |}.

Definition resetPositions (scoreTeam : option Team.Team) : M unit :=
  let! ps := gets players in
  let! p0 := index ps 0 in
  onBodies (Player.setPosition
              {| Shared.x := Shared.width GAME_SIZE / 4;
                 Shared.y := Shared.height GAME_SIZE / 2 |} p0) ;>
  let! ps := gets players in
  let! p1 := index ps 1 in
  onBodies (Player.setPosition
              {| Shared.x := Shared.width GAME_SIZE / 1.25 - Player_DIAMETER;
                 Shared.y := Shared.height GAME_SIZE / 2 |} p1) ;>
  let! b := gets ball in
  onBodies (Ball.setPosition
              {| Shared.x := Shared.width GAME_SIZE / 2;
                 Shared.y := Shared.height GAME_SIZE / 2 |} b) ;>
  match scoreTeam with
  | Some t =>
      let! l := gets teamLeft in
      onBodies (Ball.resetVelocity
                  (Some (if Team.same t l then BALL_INIT_VELOCITY
                         else - BALL_INIT_VELOCITY)%Q) b)
  | None => ret tt
  end.

Definition reset (teamThatScored : option Team.Team) : M unit :=
  resetPositions teamThatScored.

Definition clear : M unit :=
  modify (fun w => set_p2World (P2.clear (p2World w)) w) ;>
  modify (fun w =>
    set_goalEmitter (TypedEvent.removeAllListeners (goalEmitter w)) w).

Definition movePlayer (id : Shared.Id) (data : IPlayerDirectionUpdate)
  : M unit :=
  let! ps := gets players in
  match list_find (fun p => Player.socketId p = id) ps with
  | None => write (LogInfo "movePlayer - got info about player not in game.")
  | Some (i, _) =>
      modify (fun w =>
        set_players
          (alter (Player.setDirection (data_direction data)) i (players w)) w)
  end.

Definition setPlayerReady (id : Shared.Id) : M bool :=
  let! ps := gets players in
  match list_find (fun p => Player.socketId p = id) ps with
  | None =>
      write (LogInfo "setPlayerReady - got info about player not in game.") ;>
      ret false
  | Some (i, _) =>
      modify (fun w =>
        set_players (alter (Player.set_isReady true) i (players w)) w) ;>
      let! ps := gets players in
      ret (forallb Player.isReady ps)
  end.

(** The first test of the [beginContact] listener: the local [team]. *)
Definition contactTeam (evt : P2.ContactEvent) : M (option Team.Team) :=
  let! gs := gets goals in
  let! g0 := index gs 0 in
  if Nat.eqb (P2.bodyA evt) (goal g0) || Nat.eqb (P2.bodyB evt) (goal g0)
  then
    let! r := gets teamRight in ret (Some r)
  else
    let! g1 := index gs 1 in
    if Nat.eqb (P2.bodyA evt) (goal g1) || Nat.eqb (P2.bodyB evt) (goal g1)
    then
      let! l := gets teamLeft in ret (Some l)
    else ret None.

(** The listener [onBeginContact] installs on the physics world. *)
Definition beginContactListener (evt : P2.ContactEvent) : M unit :=
  let! team := contactTeam evt in
  match team with
  | None => ret tt
  | Some t =>
      let! b := gets ball in
      if Nat.eqb (P2.bodyA evt) (Ball.body b)
         || Nat.eqb (P2.bodyB evt) (Ball.body b)
      then
        write (LogDebug (Team.Side_toString (Team.TeamSide t) ++ " GOAL!")) ;>
        onBodies (Ball.resetVelocity None b) ;>
        let! teams := getTeams in
        goalEmitter_emit {| allTeams := teams; teamThatScored := t |}
      else ret tt
  end.

Definition onBeginContact : M unit :=
  modify (fun w => set_p2World (P2.on_beginContact (p2World w)) w).

(** The actions of one engine step, run in order: an update reaches the
    bodies of the world, a contact between two bodies of the world goes to
    the listener [onBeginContact] installed. *)
Fixpoint runScript (script : list P2.StepAction) : M unit :=
  match script with
  | [] => ret tt
  | P2.Integrate f :: rest =>
      modify (fun w => set_heap (P2.integrate f (p2World w) (heap w)) w) ;>
      runScript rest
  | P2.BeginContact a b :: rest =>
      let! pw := gets p2World in
      (if P2.beginContact pw && P2.inWorld pw a b
       then beginContactListener {| P2.bodyA := a; P2.bodyB := b |}
       else ret tt) ;>
      runScript rest
  end.

(** What the engine does when [step(dt, timeSinceLastCalled, maxSubSteps)]
    is called on it: its answer to the three numbers. *)
Definition Engine : Type := Q -> Q -> Z -> list P2.StepAction.

(** [p2World.step(dt, timeSinceLastCalled, maxSubSteps)]: one call, which
    runs the engine's answer to its arguments *)
Definition p2World_step (engine : Engine) (dt timeSinceLastCalled : Q)
    (maxSubSteps : Z) : M unit :=
  runScript (engine dt timeSinceLastCalled maxSubSteps).

(** [onHeartbeat(timeStep, maxSubSteps)], on an engine *)
Definition onHeartbeatBy (engine : Engine) (timeStep : Q) (maxSubSteps : Z)
  : M unit :=
  let! ps := gets players in
  forEach ps (fun p => onBodies (Player.onUpdate p)) ;>
  let! b := gets ball in
  onBodies (Ball.onUpdate b) ;>
  p2World_step engine timeStep timeStep maxSubSteps.

(** [onHeartbeat(timeStep, maxSubSteps)] when the engine answers the call
    with [script] *)
Definition onHeartbeat (timeStep : Q) (maxSubSteps : Z)
    (script : list P2.StepAction) : M unit :=
  onHeartbeatBy (fun _ _ _ => script) timeStep maxSubSteps.

End WorldMethods.

(** ** Construction *)

Section Construction.
Context `{Entities}.

(** the physics world under construction, with the store of its bodies *)
Definition Arena : Type := (P2.World * P2.Store)%type.

(** [new p2.Body(...)] placed at [pos], then [world.addBody] *)
Definition addBodyAt (pos : Shared.Vector2D) (a : Arena)
  : P2.BodyId * Arena :=
  let '(b, st) := P2.alloc (P2.newBody pos) (snd a) in
  (b, (P2.addBody b (fst a), st)).

Definition addWorldBounds (a : Arena) : Arena :=
  let '(_, a) := addBodyAt {| Shared.x := 0; Shared.y := 0 |} a in
  let '(_, a) :=
    addBodyAt {| Shared.x := 0; Shared.y := Shared.height GAME_SIZE |} a in
  let '(_, a) :=
    addBodyAt {| Shared.x := Shared.width GAME_SIZE; Shared.y := 0 |} a in
  let '(_, a) := addBodyAt {| Shared.x := 0; Shared.y := 0 |} a in
  a.

Definition addGoals (team : Team.Team) (a : Arena) : IGoal * Arena :=
  let goalWidth : Q := 20%Q in
  let goalHeight : Q := 125%Q in
  let goalNetSize : Q := 30%Q in
  let x0 : Q := (Shared.width GAME_SIZE / 10)%Q in
  let x : Q :=
    match Team.TeamSide team with
    | Team.Right => (Shared.width GAME_SIZE - x0)%Q
    | Team.Left => x0
    end in
  let '(top, a) :=
    addBodyAt
      {| Shared.x := x;
         Shared.y := Shared.height GAME_SIZE / 2 - goalHeight / 2
                     - goalNetSize / 2 |} a in
  let '(bottom, a) :=
    addBodyAt
      {| Shared.x := x;
         Shared.y := Shared.height GAME_SIZE / 2 + goalHeight / 2
                     + goalNetSize / 2 |} a in
  let offset : Q := (goalWidth / 2 + goalNetSize / 2)%Q in
  let '(back, a) :=
    addBodyAt
      {| Shared.x := x - (match Team.TeamSide team with
                          | Team.Left => offset
                          | Team.Right => - offset
                          end);
         Shared.y := Shared.height GAME_SIZE / 2 |} a in
  let goalBoxWidth : Q := 4%Q in
  let goalOffset : Q := (goalBoxWidth + 4)%Q in
  let '(goal, a) :=
    addBodyAt
      {| Shared.x := x - (match Team.TeamSide team with
                          | Team.Left => goalOffset
                          | Team.Right => - goalOffset
                          end);
         Shared.y := Shared.height GAME_SIZE / 2 |} a in
  ({| back := back; bottom := bottom; top := top; goal := goal |}, a).

(** [new World(player1Id, player2Id)]: the fields as the constructor has
    assigned them when it calls [resetPositions]. *)
Definition assemble (player1Id player2Id : Shared.Id) : World :=
  let goalEmitter := TypedEvent.new in
  let pw := P2.newWorld {| Shared.x := 0; Shared.y := 0 |} in
  let pw := P2.set_restitution 1 pw in
  let pw := P2.set_friction 0 pw in
  let '(pw, st) := addWorldBounds (pw, []) in
  let teamLeft := {| Team.ref := 0; Team.TeamSide := Team.Left |} in
  let teamRight := {| Team.ref := 1; Team.TeamSide := Team.Right |} in
  let '(player1, pw, st) := Player.new pw st player1Id 0xff0000%Z teamLeft in
  let '(player2, pw, st) := Player.new pw st player2Id 0x0000ff%Z teamRight in
  let '(ball, pw, st) := Ball.new pw st in
  let '(goal1, (pw, st)) := addGoals teamLeft (pw, st) in
  let '(goal2, (pw, st)) := addGoals teamRight (pw, st) in
  {| goalEmitter := goalEmitter; goals := [goal1; goal2]; p2World := pw;
     players := [player1; player2]; ball := ball;
     teamLeft := teamLeft; teamRight := teamRight; heap := st |}.

Definition constructor (player1Id player2Id : Shared.Id)
  : option (World * list Output) :=
  match (resetPositions None ;> onBeginContact)
          (assemble player1Id player2Id) with
  | Some (_, w, out) => Some (w, out)
  | None => None
  end.

End Construction.

(** ** A match as a succession of calls

    The calls that change a world: the public methods of the class and the
    registration of a listener on the public [goalEmitter].  ([getTick] and
    [getInit] only read.) *)

Inductive Call : Type :=
| CallReset (teamThatScored : option Team.Team)
| CallOnHeartbeat (timeStep : Q) (maxSubSteps : Z) (script : list P2.StepAction)
| CallMovePlayer (id : Shared.Id) (data : IPlayerDirectionUpdate)
| CallSetPlayerReady (id : Shared.Id)
| CallOn (h : TypedEvent.Listener)
| CallClear.

Section Calls.
Context `{Entities}.

Definition call (c : Call) : M unit :=
  match c with
  | CallReset t => reset t
  | CallOnHeartbeat dt n script => onHeartbeat dt n script
  | CallMovePlayer id data => movePlayer id data
  | CallSetPlayerReady id => setPlayerReady id ;> ret tt
  | CallOn h => goalEmitter_on h
  | CallClear => clear
  end.

Definition calls (cs : list Call) : M unit := forEach cs call.

(** the worlds a session can hold: built by the constructor, then driven
    through the public methods *)
Definition reachable (w : World) : Prop :=
  exists (player1Id player2Id : Shared.Id) (cs : list Call)
         (w0 : World) (out0 out : list Output),
    constructor player1Id player2Id = Some (w0, out0) /\
    calls cs w0 = Some (tt, w, out).

End Calls.

(** ** Notions the statements use *)

Section Notions.
Context `{Entities}.

(** The wiring of a match: the references set up by the constructor (which
    body belongs to which entity, which team is which, who the two players
    are) and the fifteen bodies of the store. *)
Definition wired (player1Id player2Id : Shared.Id) (w : World) : Prop :=
  goals w = [ {| back := 9; bottom := 8; top := 7; goal := 10 |};
              {| back := 13; bottom := 12; top := 11; goal := 14 |} ] /\
  ball w = {| Ball.body := 6 |} /\
  teamLeft w = {| Team.ref := 0; Team.TeamSide := Team.Left |} /\
  teamRight w = {| Team.ref := 1; Team.TeamSide := Team.Right |} /\
  map Player.socketId (players w) = [player1Id; player2Id] /\
  map Player.body (players w) = [4; 5] /\
  length (heap w) = 15.

(** every field but the store of bodies *)
Definition frame (w : World) : World := set_heap [] w.

(** the world the constructor returns *)
Definition built (id1 id2 : Shared.Id) : World :=
  match constructor id1 id2 with
  | Some (w, _) => w
  | None => assemble id1 id2
  end.

(** the store as the engine finds it when [step] is called *)
Definition preStep (w : World) : World :=
  set_heap
    (Ball.onUpdate (ball w)
       (foldl (fun st p => Player.onUpdate p st) (heap w) (players w)))
    w.

(** what the listener returns when it credits team [t] in world [w] *)
Definition credited (t : Team.Team) (w : World)
  : option (unit * World * list Output) :=
  Some (tt,
        set_heap (Ball.resetVelocity None (ball w) (heap w)) w,
        [ LogDebug (Team.Side_toString (Team.TeamSide t) ++ " GOAL!");
          GoalEmit {| allTeams := {| ITeams.teamLeft := teamLeft w;
                                     ITeams.teamRight := teamRight w |};
                      teamThatScored := t |}
                   (TypedEvent.listeners (goalEmitter w)) ]).

(** where the bodies of the players and of the ball are *)
Definition placement (w : World)
  : list (option Shared.Vector2D) * option Shared.Vector2D :=
  (map (fun p => P2.position <$> heap w !! Player.body p) (players w),
   P2.position <$> heap w !! Ball.body (ball w)).

(** the placement [resetPositions] asks for *)
Definition setupPlacement
  : list (option Shared.Vector2D) * option Shared.Vector2D :=
  ([ Some {| Shared.x := Shared.width GAME_SIZE / 4;
             Shared.y := Shared.height GAME_SIZE / 2 |};
     Some {| Shared.x := Shared.width GAME_SIZE / 1.25 - Player_DIAMETER;
             Shared.y := Shared.height GAME_SIZE / 2 |} ],
   Some {| Shared.x := Shared.width GAME_SIZE / 2;
           Shared.y := Shared.height GAME_SIZE / 2 |}).

(** the placement as the specification words it: the right player at
    [width / 1.25] minus its radius *)
Definition specPlacement
  : list (option Shared.Vector2D) * option Shared.Vector2D :=
  ([ Some {| Shared.x := Shared.width GAME_SIZE / 4;
             Shared.y := Shared.height GAME_SIZE / 2 |};
     Some {| Shared.x :=
               Shared.width GAME_SIZE / 1.25 - Player_DIAMETER / 2;
             Shared.y := Shared.height GAME_SIZE / 2 |} ],
   Some {| Shared.x := Shared.width GAME_SIZE / 2;
           Shared.y := Shared.height GAME_SIZE / 2 |}).

Definition sameVector (u v : option Shared.Vector2D) : bool :=
  match u, v with
  | Some u, Some v =>
      Qeq_bool (Shared.x u) (Shared.x v) && Qeq_bool (Shared.y u) (Shared.y v)
  | None, None => true
  | _, _ => false
  end.

Fixpoint sameVectors (us vs : list (option Shared.Vector2D)) : bool :=
  match us, vs with
  | [], [] => true
  | u :: us, v :: vs => sameVector u v && sameVectors us vs
  | _, _ => false
  end.

(** two placements agree, coordinate by coordinate, as numbers *)
Definition samePlacement
    (p q : list (option Shared.Vector2D) * option Shared.Vector2D) : bool :=
  sameVectors (fst p) (fst q) && sameVector (snd p) (snd q).

(** [this.players.find(p => p.socketId === id)] in a match between [id1]
    and [id2]: the index of the player found *)
Definition found (id1 id2 id : Shared.Id) : option nat :=
  if decide (id1 = id) then Some 0
  else if decide (id2 = id) then Some 1
  else None.

(** [id] is the id of a player of the match *)
Definition known (id1 id2 id : Shared.Id) : bool :=
  match found id1 id2 id with
  | Some _ => true
  | None => false
  end.

Definition finds (id1 id2 : Shared.Id) (k : nat) (id : Shared.Id) : bool :=
  match found id1 id2 id with
  | Some j => Nat.eqb j k
  | None => false
  end.

(** player [k] was marked ready by one of the calls [ids] *)
Definition marked (id1 id2 : Shared.Id) (k : nat) (ids : list Shared.Id)
  : bool :=
  existsb (finds id1 id2 k) ids.

(** the ids [setPlayerReady] was called with *)
Definition readyIds (cs : list Call) : list Shared.Id :=
  flat_map (fun c => match c with
                     | CallSetPlayerReady id => [id]
                     | _ => []
                     end) cs.

Definition readiness (id1 id2 : Shared.Id) (ids : list Shared.Id)
    (w : World) : Prop :=
  wired id1 id2 w /\
  map Player.isReady (players w)
  = [marked id1 id2 0 ids; marked id1 id2 1 ids].

Definition isGoalEmit (o : Output) : bool :=
  match o with
  | GoalEmit _ _ => true
  | _ => false
  end.

Definition isOn (c : Call) : bool :=
  match c with
  | CallOn _ => true
  | _ => false
  end.

(** the physics world holds no body *)
Definition cleared (w : World) : Prop := P2.bodies (p2World w) = [].

(** the answers to a succession of [setPlayerReady] calls *)
Fixpoint readyAnswers (ids : list Shared.Id) : M (list bool) :=
  match ids with
  | [] => ret []
  | id :: rest =>
      let! r := setPlayerReady id in
      let! rs := readyAnswers rest in
      ret (r :: rs)
  end.

End Notions.

(** ** A sample match

    An instance of the entity constants for the closed examples: a player of
    diameter 60 whose direction is scaled by a speed of 5, and a ball capped
    at 70 on each axis; a match between "p1" and "p2". *)

Definition cap (m q : Q) : Q :=
  if Qle_bool m q then m else if Qle_bool q (- m) then (- m)%Q else q.

Definition sampleEntities : Entities :=
  {| Player_DIAMETER := 60;
     Player_applyDirection := fun d _ =>
       {| Shared.x := 5 * Shared.x d; Shared.y := 5 * Shared.y d |};
     Ball_constrainVelocity := fun v =>
       {| Shared.x := cap 70 (Shared.x v); Shared.y := cap 70 (Shared.y v) |}
  |}.

Definition sampleWorld : World :=
  Eval vm_compute in
    match @constructor sampleEntities "p1" "p2" with
    | Some (w, _) => w
    | None => assemble "p1" "p2"
    end.

(** the engine carries the ball into the mouth of the right goal *)
Definition drive (i : P2.BodyId) (o : P2.Body) : P2.Body :=
  if Nat.eqb i 6
  then {| P2.position := {| Shared.x := 1088; Shared.y := 300 |};
          P2.velocity := {| Shared.x := 50; Shared.y := 0 |} |}
  else o.

Definition goalMouth : World :=
  Eval vm_compute in
    match @onHeartbeat sampleEntities (1 # 60) 10 [P2.Integrate drive]
            sampleWorld with
    | Some (_, w, _) => w
    | None => sampleWorld
    end.

Definition oneReady : World :=
  Eval vm_compute in
    match @calls sampleEntities [CallSetPlayerReady "p1"] sampleWorld with
    | Some (_, w, _) => w
    | None => sampleWorld
    end.

(** ** Notions for the further properties *)

(** every body object is in the physics world, and the contact listener is
    installed *)
Definition populated (w : World) : Prop :=
  P2.bodies (p2World w) = seq 0 (length (heap w)) /\
  P2.beginContact (p2World w) = true.

(** the references the world holds to body objects *)
Definition entityBodies (w : World) : list P2.BodyId :=
  map Player.body (players w) ++ [Ball.body (ball w)]
  ++ flat_map (fun g => [top g; bottom g; back g; goal g]) (goals w).

(** what [goalEmitter.emit] sends out when team [t] is credited in [w] *)
Definition goalEvent (w : World) (t : Team.Team) : Output :=
  GoalEmit {| allTeams := {| ITeams.teamLeft := teamLeft w;
                             ITeams.teamRight := teamRight w |};
              teamThatScored := t |}
           (TypedEvent.listeners (goalEmitter w)).

(** The classification of a contact as a function of the pair: the team
    credited when the ball meets a goal sensor, nobody otherwise. *)
Definition scoringContact (w : World) (act : P2.StepAction)
  : option Team.Team :=
  match act with
  | P2.Integrate _ => None
  | P2.BeginContact a b =>
      match goals w with
      | g0 :: g1 :: _ =>
          if Nat.eqb a (Ball.body (ball w)) || Nat.eqb b (Ball.body (ball w))
          then
            if Nat.eqb a (goal g0) || Nat.eqb b (goal g0)
            then Some (teamRight w)
            else if Nat.eqb a (goal g1) || Nat.eqb b (goal g1)
                 then Some (teamLeft w)
                 else None
          else None
      | _ => None
      end
  end.

(** the scoring events of a list of outputs *)
Definition emitted (out : list Output) : list Output :=
  List.filter isGoalEmit out.

(** the scoring events the notifications of a script give rise to *)
Definition scores (w : World) (script : list P2.StepAction) : list Output :=
  map (goalEvent w) (omap (scoringContact w) script).

(** the world and the value a call leaves, without what it wrote *)
Definition outcome {A : Type} (r : option (A * World * list Output))
  : option (A * World) :=
  match r with
  | Some (a, w, _) => Some (a, w)
  | None => None
  end.

(** the position of a body of a store *)
Definition positionOf (st : P2.Store) (b : P2.BodyId)
  : option Shared.Vector2D :=
  P2.position <$> st !! b.

(** [goalMouth] once [clear] has run *)
Definition clearedWorld : World :=
  Eval vm_compute in
    match clear goalMouth with
    | Some (_, w, _) => w
    | None => goalMouth
    end.

(** where [addGoals] puts the four obstacles of a goal: top post, bottom
    post, back wall, sensor *)
Definition goalLayout (team : Team.Team) (a : Arena)
  : list (option Shared.Vector2D) :=
  let '(g, (_, st)) := addGoals team a in
  map (positionOf st) [top g; bottom g; back g; goal g].

(** [q] is the mirror image of [p] in the vertical axis of the arena *)
Definition mirrored (p q : option Shared.Vector2D) : Prop :=
  match p, q with
  | Some p, Some q =>
      (Shared.x q == Shared.width GAME_SIZE - Shared.x p)%Q /\
      (Shared.y q == Shared.y p)%Q
  | _, _ => False
  end.

(** [setPlayerReady(b)] first, then [movePlayer(a, data)], returning the
    answer of the former *)
Definition readyThenMove (b a : Shared.Id) (data : IPlayerDirectionUpdate)
  : M bool :=
  let! r := setPlayerReady b in
  movePlayer a data ;>
  ret r.

(** a match whose two players connected under one id *)
Definition sameIdWorld : World :=
  Eval vm_compute in
    match @constructor sampleEntities "p" "p" with
    | Some (w, _) => w
    | None => assemble "p" "p"
    end.

(** a team object of another match, on the left side *)
Definition foreignLeft : Team.Team :=
  {| Team.ref := 7; Team.TeamSide := Team.Left |}.

(** one tick in which the engine reports the ball in the right goal, then
    against a post, then in the left goal *)
Definition busyScript : list P2.StepAction :=
  [P2.Integrate drive; P2.BeginContact 14 6; P2.BeginContact 6 7;
   P2.BeginContact 6 10].

(** an arena with nothing built yet *)
Definition emptyArena : Arena :=
  (P2.newWorld {| Shared.x := 0; Shared.y := 0 |}, []).

(** ** The step of the engine, as a relation *)

(** One step of the engine, told as the specification tells it: the actions
    of the engine take effect one after the other; an update reaches the
    bodies of the physics world; a contact between two bodies of the world
    is handed to the installed listener, and any other is dropped. *)
Inductive Steps : World -> list P2.StepAction -> World -> list Output -> Prop :=
| Steps_done (w : World) : Steps w [] w []
| Steps_update (w : World) (f : P2.BodyId -> P2.Body -> P2.Body)
    (rest : list P2.StepAction) (w' : World) (out : list Output) :
    Steps (set_heap (P2.integrate f (p2World w) (heap w)) w) rest w' out ->
    Steps w (P2.Integrate f :: rest) w' out
| Steps_contact (w : World) (a b : P2.BodyId) (rest : list P2.StepAction)
    (w1 : World) (out1 : list Output) (w' : World) (out : list Output) :
    P2.beginContact (p2World w) = true ->
    a ∈ P2.bodies (p2World w) -> b ∈ P2.bodies (p2World w) ->
    beginContactListener {| P2.bodyA := a; P2.bodyB := b |} w
    = Some (tt, w1, out1) ->
    Steps w1 rest w' out ->
    Steps w (P2.BeginContact a b :: rest) w' (out1 ++ out)
| Steps_dropped (w : World) (a b : P2.BodyId) (rest : list P2.StepAction)
    (w' : World) (out : list Output) :
    P2.beginContact (p2World w) = false \/
    a ∉ P2.bodies (p2World w) \/ b ∉ P2.bodies (p2World w) ->
    Steps w rest w' out ->
    Steps w (P2.BeginContact a b :: rest) w' out.

(** an engine for the examples: with [timeSinceLastCalled] equal to [dt]
    and at least one sub-step allowed it carries the ball into the right
    goal and reports the contact; called otherwise it does nothing *)
Definition sampleEngine : Engine :=
  fun dt timeSinceLastCalled maxSubSteps =>
    if Qeq_bool dt timeSinceLastCalled && Z.ltb 0 maxSubSteps
    then [P2.Integrate drive; P2.BeginContact 14 6]
    else [].

(** * Properties *)

(** ** The wiring of a match is never changed *)

#[local] Arguments Qdiv : simpl never.
#[local] Arguments Qminus : simpl never.
#[local] Arguments Qplus : simpl never.
#[local] Arguments Qopp : simpl never.
#[local] Arguments Qmult : simpl never.

Ltac unfold_methods :=
  unfold calls, call, reset, resetPositions, clear, movePlayer, setPlayerReady,
    onHeartbeat, onHeartbeatBy, p2World_step, beginContactListener,
    contactTeam, getTeams,
    goalEmitter_emit, goalEmitter_on, onBeginContact, onBodies, index, bind,
    gets, modify, write, ret, throw in *.

(** a store of fifteen bodies, spelled out *)
Ltac spell_heap hp Hlen :=
  do 15 (destruct hp as [|? hp]; [discriminate Hlen|]);
  destruct hp; [clear Hlen|discriminate Hlen].

(** two players, spelled out *)
Ltac spell_players ps Hids Hbodies :=
  destruct ps as [|[] [|[] [|]]]; try discriminate Hids;
  simpl in Hids, Hbodies; injection Hids as -> ->;
  injection Hbodies as -> ->.

Ltac spell_world w Hw :=
  let ge := fresh "ge" in let gs := fresh "gs" in let pw := fresh "pw" in
  let ps := fresh "ps" in let b := fresh "b" in let tl := fresh "tl" in
  let tr := fresh "tr" in let hp := fresh "hp" in
  let Hids := fresh "Hids" in let Hbodies := fresh "Hbodies" in
  let Hlen := fresh "Hlen" in
  destruct w as [ge gs pw ps b tl tr hp];
  unfold wired in Hw; simpl in Hw;
  destruct Hw as (-> & -> & -> & -> & Hids & Hbodies & Hlen);
  spell_players ps Hids Hbodies.

Section Wiring.
Context `{Entities}.

Lemma integrate_length (f : P2.BodyId -> P2.Body -> P2.Body)
    (pw : P2.World) (st : P2.Store) :
  length (P2.integrate f pw st) = length st.
Proof.
  unfold P2.integrate. generalize st.
  induction (P2.bodies pw) as [|i l IH]; intros s; simpl; [reflexivity|].
  rewrite IH. apply length_alter.
Qed.

Lemma wired_frame (id1 id2 : Shared.Id) (w w' : World) :
  wired id1 id2 w -> frame w' = frame w ->
  length (heap w') = length (heap w) -> wired id1 id2 w'.
Proof.
  intros Hw Hf Hl. destruct w, w'. unfold frame, set_heap in Hf.
  simpl in *. injection Hf as -> -> -> -> -> -> ->.
  unfold wired in *. simpl in *. rewrite Hl. exact Hw.
Qed.

(** The listener neither throws nor rewires anything. *)
Lemma beginContactListener_frame (id1 id2 : Shared.Id) (w : World)
    (evt : P2.ContactEvent) :
  wired id1 id2 w ->
  exists w' out, beginContactListener evt w = Some (tt, w', out) /\
    frame w' = frame w /\ length (heap w') = length (heap w).
Proof.
  intros Hw. spell_world w Hw. destruct evt as [a b].
  unfold_methods. simpl.
  destruct (Nat.eqb a 10 || Nat.eqb b 10); simpl.
  - destruct (Nat.eqb a 6 || Nat.eqb b 6); simpl; eexists _, _;
      (split; [reflexivity|]); split; try reflexivity.
    unfold Ball.resetVelocity. simpl. apply length_alter.
  - destruct (Nat.eqb a 14 || Nat.eqb b 14); simpl.
    + destruct (Nat.eqb a 6 || Nat.eqb b 6); simpl; eexists _, _;
        (split; [reflexivity|]); split; try reflexivity.
      unfold Ball.resetVelocity. simpl. apply length_alter.
    + eexists _, _. repeat split.
Qed.

Lemma runScript_frame (id1 id2 : Shared.Id) (script : list P2.StepAction) :
  forall w : World, wired id1 id2 w ->
  exists w' out, runScript script w = Some (tt, w', out) /\
    frame w' = frame w /\ length (heap w') = length (heap w).
Proof.
  induction script as [|[f|a b] rest IH]; intros w Hw; simpl.
  - exists w, []. repeat split.
  - unfold bind, modify at 1.
    set (w1 := set_heap _ w).
    assert (Hf1 : frame w1 = frame w) by (destruct w; reflexivity).
    assert (Hl1 : length (heap w1) = length (heap w))
      by (destruct w; simpl; apply integrate_length).
    destruct (IH w1 (wired_frame _ _ _ _ Hw Hf1 Hl1))
      as (w' & out & -> & Hf & Hl).
    exists w', out. split; [reflexivity|]. split; congruence.
  - unfold bind at 1 2, gets at 1.
    assert (Hstep : exists w1 out1,
               (if P2.beginContact (p2World w) && P2.inWorld (p2World w) a b
                then beginContactListener {| P2.bodyA := a; P2.bodyB := b |}
                else ret tt) w = Some (tt, w1, out1) /\
               frame w1 = frame w /\ length (heap w1) = length (heap w)).
    { destruct (P2.beginContact (p2World w) && P2.inWorld (p2World w) a b).
      - apply (beginContactListener_frame id1 id2); exact Hw.
      - exists w, []. repeat split. }
    destruct Hstep as (w1 & out1 & -> & Hf1 & Hl1).
    destruct (IH w1 (wired_frame _ _ _ _ Hw Hf1 Hl1))
      as (w' & out & -> & Hf & Hl).
    simpl. eexists _, _. split; [reflexivity|]. split; congruence.
Qed.

End Wiring.

Section Reachable.
Context `{Entities}.

Lemma map_alter_same {A B : Type} (f : A -> B) (g : A -> A) (i : nat)
    (l : list A) :
  (forall a, f (g a) = f a) -> map f (alter g i l) = map f l.
Proof.
  intros Hfg. revert i. induction l as [|a l IH]; intros [|i]; simpl;
    try reflexivity.
  - now rewrite Hfg.
  - f_equal. apply IH.
Qed.

Lemma constructor_built (id1 id2 : Shared.Id) :
  constructor id1 id2 = Some (built id1 id2, []).
Proof. vm_compute. reflexivity. Qed.

Lemma built_wired (id1 id2 : Shared.Id) :
  wired id1 id2 (built id1 id2) /\
  P2.bodies (p2World (built id1 id2)) = seq 0 15 /\
  P2.beginContact (p2World (built id1 id2)) = true /\
  map Player.isReady (players (built id1 id2)) = [false; false] /\
  TypedEvent.listeners (goalEmitter (built id1 id2)) = [].
Proof. unfold wired. repeat split; vm_compute; reflexivity. Qed.

#[local] Opaque built.

Lemma reset_wired (id1 id2 : Shared.Id) (t : option Team.Team) (w : World) :
  wired id1 id2 w ->
  exists w', reset t w = Some (tt, w', []) /\ frame w' = frame w /\
    length (heap w') = length (heap w).
Proof.
  intros Hw. spell_world w Hw. spell_heap hp Hlen.
  destruct t as [t|]; eexists; (split; [reflexivity|]); split; reflexivity.
Qed.

Lemma forEach_onBodies {A : Type} (f : A -> P2.Store -> P2.Store)
    (xs : list A) :
  forall w : World,
    forEach xs (fun a => onBodies (f a)) w
    = Some (tt, set_heap (foldl (fun st a => f a st) (heap w) xs) w, []).
Proof.
  induction xs as [|a xs IH]; intros w; simpl.
  - destruct w; reflexivity.
  - unfold bind. unfold onBodies at 1, modify. rewrite IH.
    destruct w; reflexivity.
Qed.

Lemma onHeartbeat_unfold (dt : Q) (n : Z) (script : list P2.StepAction)
    (w : World) :
  onHeartbeat dt n script w = runScript script (preStep w).
Proof.
  unfold onHeartbeat, onHeartbeatBy. unfold bind at 1, gets at 1.
  unfold bind at 1. rewrite forEach_onBodies.
  unfold bind at 1, gets at 1. unfold bind at 1, onBodies, modify.
  unfold p2World_step.
  set (r := runScript script (preStep w)).
  match goal with |- context [runScript script ?w1] =>
    replace w1 with (preStep w) by (destruct w; reflexivity)
  end.
  fold r. destruct r as [[[[] w'] out]|]; reflexivity.
Qed.

Lemma preStep_frame (w : World) :
  frame (preStep w) = frame w /\
  length (heap (preStep w)) = length (heap w).
Proof.
  split; [destruct w; reflexivity|].
  destruct w as [ge gs pw ps b tl tr hp]. unfold preStep. simpl.
  unfold Ball.onUpdate. rewrite length_alter.
  revert hp. induction ps as [|p ps IH]; intros hp; simpl; [reflexivity|].
  rewrite IH. unfold Player.onUpdate. apply length_alter.
Qed.

Lemma onHeartbeat_wired (id1 id2 : Shared.Id) (dt : Q) (n : Z)
    (script : list P2.StepAction) (w : World) :
  wired id1 id2 w ->
  exists w' out, onHeartbeat dt n script w = Some (tt, w', out) /\
    frame w' = frame w /\ length (heap w') = length (heap w).
Proof.
  intros Hw. rewrite onHeartbeat_unfold.
  destruct (preStep_frame w) as [Hf0 Hl0].
  destruct (runScript_frame id1 id2 script (preStep w))
    as (w' & out & -> & Hf & Hl).
  { eapply wired_frame; eassumption. }
  exists w', out. split; [reflexivity|]. split; congruence.
Qed.

Lemma call_wired (id1 id2 : Shared.Id) (c : Call) (w : World) :
  wired id1 id2 w ->
  exists w' out, call c w = Some (tt, w', out) /\ wired id1 id2 w'.
Proof.
  intros Hw. destruct c as [t|dt n script|id data|id|h|]; simpl.
  - destruct (reset_wired id1 id2 t w Hw) as (w' & -> & Hf & Hl).
    eexists _, _. split; [reflexivity|]. eapply wired_frame; eassumption.
  - destruct (onHeartbeat_wired id1 id2 dt n script w Hw)
      as (w' & out & -> & Hf & Hl).
    eexists _, _. split; [reflexivity|]. eapply wired_frame; eassumption.
  - unfold movePlayer, bind, gets.
    destruct (list_find _ (players w)) as [[i p]|]; simpl.
    + eexists _, _. split; [reflexivity|].
      destruct w; unfold wired in *; simpl in *.
      rewrite !map_alter_same by (intros []; reflexivity). exact Hw.
    + eexists _, _. split; [reflexivity|]. exact Hw.
  - unfold setPlayerReady, bind, gets.
    destruct (list_find _ (players w)) as [[i p]|]; simpl.
    + eexists _, _. split; [reflexivity|].
      destruct w; unfold wired in *; simpl in *.
      rewrite !map_alter_same by (intros []; reflexivity). exact Hw.
    + eexists _, _. split; [reflexivity|]. exact Hw.
  - eexists _, _. split; [reflexivity|]. destruct w; exact Hw.
  - eexists _, _. split; [reflexivity|]. destruct w; exact Hw.
Qed.

Lemma calls_wired (id1 id2 : Shared.Id) (cs : list Call) :
  forall w : World, wired id1 id2 w ->
  exists w' out, calls cs w = Some (tt, w', out) /\ wired id1 id2 w'.
Proof.
  induction cs as [|c cs IH]; intros w Hw.
  - exists w, []. split; [reflexivity|exact Hw].
  - change (calls (c :: cs) w) with ((call c ;> calls cs) w). unfold bind.
    destruct (call_wired id1 id2 c w Hw) as (w1 & out1 & Hc & Hw1).
    destruct (IH w1 Hw1) as (w' & out & Hcs & Hw').
    rewrite Hc, Hcs.
    eexists _, _. split; [reflexivity|exact Hw'].
Qed.

Lemma reachable_wired (w : World) :
  reachable w -> exists id1 id2, wired id1 id2 w.
Proof.
  intros (id1 & id2 & cs & w0 & out0 & out & Hc & Hcs).
  assert (w0 = built id1 id2) as ->.
  { pose proof (constructor_built id1 id2) as Hb. rewrite Hc in Hb.
    exact (f_equal (fun o : option (World * list Output) =>
                      match o with Some (x, _) => x | None => w0 end) Hb). }
  destruct (built_wired id1 id2) as (Hw0 & _).
  destruct (calls_wired id1 id2 cs _ Hw0) as (w' & out' & Hcs' & Hw').
  rewrite Hcs' in Hcs. injection Hcs as <- _.
  exists id1, id2. exact Hw'.
Qed.

End Reachable.

Lemma sampleWorld_reachable : @reachable sampleEntities sampleWorld.
Proof.
  exists "p1", "p2", [], sampleWorld, [], []. split.
  - vm_compute. reflexivity.
  - reflexivity.
Qed.

(** ** Scoring contacts *)

Section Scoring.
Context `{Entities}.

(** C1: on a "begin contact" notification, the left team's sensor with the
    ball credits the right team, the right team's sensor with the ball
    credits the left team, a pair without the ball produces nothing, and a
    pair that involves the left sensor is decided by the left sensor's
    test, whatever the other body is (the right sensor included). *)
Theorem beginContact_scoring_team (w : World) (a b : P2.BodyId) :
  reachable w ->
  exists gl gr : IGoal,
    goals w !! 0 = Some gl /\ goals w !! 1 = Some gr /\
    Team.TeamSide (teamLeft w) = Team.Left /\
    Team.TeamSide (teamRight w) = Team.Right /\
    let evt := {| P2.bodyA := a; P2.bodyB := b |} in
    let ballBody := Ball.body (ball w) in
    ((a = goal gl /\ b = ballBody) \/ (a = ballBody /\ b = goal gl) ->
     beginContactListener evt w = credited (teamRight w) w) /\
    ((a = goal gr /\ b = ballBody) \/ (a = ballBody /\ b = goal gr) ->
     beginContactListener evt w = credited (teamLeft w) w) /\
    (a <> ballBody -> b <> ballBody ->
     beginContactListener evt w = Some (tt, w, [])) /\
    (a = goal gl \/ b = goal gl ->
     contactTeam evt w = Some (Some (teamRight w), w, [])).
Proof.
  intros Hr. destruct (reachable_wired w Hr) as (id1 & id2 & Hw).
  spell_world w Hw.
  eexists _, _. split; [reflexivity|]. split; [reflexivity|].
  split; [reflexivity|]. split; [reflexivity|]. simpl.
  split; [|split; [|split]].
  - intros [[-> ->]|[-> ->]]; reflexivity.
  - intros [[-> ->]|[-> ->]]; reflexivity.
  - intros Ha Hb. unfold_methods. simpl.
    apply Nat.eqb_neq in Ha, Hb.
    destruct (Nat.eqb a 10 || Nat.eqb b 10); simpl.
    + rewrite Ha, Hb. reflexivity.
    + destruct (Nat.eqb a 14 || Nat.eqb b 14); simpl; [|reflexivity].
      rewrite Ha, Hb. reflexivity.
  - intros Hab. unfold_methods. simpl.
    assert (Nat.eqb a 10 || Nat.eqb b 10 = true) as ->; [|reflexivity].
    destruct Hab as [-> | ->]; simpl; [reflexivity|].
    apply orb_true_r.
Qed.

End Scoring.

Lemma beginContact_scoring_team_witness :
  exists gl gr : IGoal,
    goals sampleWorld !! 0 = Some gl /\ goals sampleWorld !! 1 = Some gr /\
    Team.TeamSide (teamLeft sampleWorld) = Team.Left /\
    Team.TeamSide (teamRight sampleWorld) = Team.Right /\
    ((14 = goal gl /\ 6 = Ball.body (ball sampleWorld)) \/
     (14 = Ball.body (ball sampleWorld) /\ 6 = goal gl) ->
     beginContactListener {| P2.bodyA := 14; P2.bodyB := 6 |} sampleWorld
     = credited (teamRight sampleWorld) sampleWorld) /\
    ((14 = goal gr /\ 6 = Ball.body (ball sampleWorld)) \/
     (14 = Ball.body (ball sampleWorld) /\ 6 = goal gr) ->
     beginContactListener {| P2.bodyA := 14; P2.bodyB := 6 |} sampleWorld
     = credited (teamLeft sampleWorld) sampleWorld) /\
    (14 <> Ball.body (ball sampleWorld) -> 6 <> Ball.body (ball sampleWorld) ->
     beginContactListener {| P2.bodyA := 14; P2.bodyB := 6 |} sampleWorld
     = Some (tt, sampleWorld, [])) /\
    (14 = goal gl \/ 6 = goal gl ->
     contactTeam {| P2.bodyA := 14; P2.bodyB := 6 |} sampleWorld
     = Some (Some (teamRight sampleWorld), sampleWorld, [])).
Proof.
  apply (@beginContact_scoring_team sampleEntities sampleWorld 14 6).
  exact sampleWorld_reachable.
Defined.

(** ** Placement *)

Section Placement.
Context `{Entities}.

Lemma built_placement (id1 id2 : Shared.Id) :
  placement (built id1 id2) = setupPlacement.
Proof. vm_compute. reflexivity. Qed.

(** [reset] on a wired world, spelled out on the store *)
Lemma reset_heap (id1 id2 : Shared.Id) (t : option Team.Team) (w : World) :
  wired id1 id2 w ->
  exists w', reset t w = Some (tt, w', []) /\ frame w' = frame w /\
    placement w' = setupPlacement /\
    (P2.velocity <$> heap w' !! Ball.body (ball w)) =
      match t with
      | Some s =>
          Some {| Shared.x := if Team.same s (teamLeft w)
                              then BALL_INIT_VELOCITY
                              else (- BALL_INIT_VELOCITY)%Q;
                  Shared.y := 0 |}
      | None => P2.velocity <$> heap w !! Ball.body (ball w)
      end /\
    is_Some (heap w !! Ball.body (ball w)).
Proof.
  intros Hw. spell_world w Hw. spell_heap hp Hlen.
  destruct t as [t|]; eexists; (split; [reflexivity|]); repeat split;
    eexists; reflexivity.
Qed.

End Placement.

(** ** What a goal does, and what [reset] does *)

Section Goals.
Context `{Entities}.

(** C2, as amended: on a scoring contact (the ball with the sensor of
    [goals[i]], in either order) the listener sets the ball's velocity to
    zero and emits exactly one scoring event, carrying the scoring team
    ([teamRight] for the sensor of [goals[0]], [teamLeft] for that of
    [goals[1]]) and both teams; its own code changes no position: the
    players and the ball stay where they are. *)
Theorem goal_contact_effect (w : World) (i : nat) (g : IGoal)
    (a b : P2.BodyId) :
  reachable w ->
  goals w !! i = Some g ->
  (a = goal g /\ b = Ball.body (ball w)) \/
  (a = Ball.body (ball w) /\ b = goal g) ->
  let t := match i with
           | O => teamRight w
           | S _ => teamLeft w
           end in
  exists w' : World,
    beginContactListener {| P2.bodyA := a; P2.bodyB := b |} w
    = Some (tt, w',
            [ LogDebug (Team.Side_toString (Team.TeamSide t) ++ " GOAL!");
              GoalEmit {| allTeams := {| ITeams.teamLeft := teamLeft w;
                                         ITeams.teamRight := teamRight w |};
                          teamThatScored := t |}
                       (TypedEvent.listeners (goalEmitter w)) ]) /\
    Team.TeamSide t = match i with
                      | O => Team.Right
                      | S _ => Team.Left
                      end /\
    frame w' = frame w /\
    (P2.velocity <$> heap w' !! Ball.body (ball w)) = Some Shared.zero /\
    map P2.position (heap w') = map P2.position (heap w) /\
    placement w' = placement w.
Proof.
  intros Hr Hg Hab. destruct (reachable_wired w Hr) as (id1 & id2 & Hw).
  clear Hr.
  spell_world w Hw. spell_heap hp Hlen. simpl in Hab.
  destruct i as [|[|i]]; simpl in Hg; try discriminate Hg;
    injection Hg as <-; simpl in Hab; cbv zeta; eexists;
    destruct Hab as [[-> ->]|[-> ->]]; repeat split; reflexivity.
Qed.

(** C3: the ball in the right team's sensor credits the left team; a
    reset for the left team sends the ball off horizontally with a positive
    x velocity (towards the right side), a reset for the right team with a
    negative one. *)
Theorem goal_right_then_reset (w : World) (gr : IGoal) :
  reachable w ->
  goals w !! 1 = Some gr ->
  beginContactListener
    {| P2.bodyA := Ball.body (ball w); P2.bodyB := goal gr |} w
  = credited (teamLeft w) w /\
  beginContactListener
    {| P2.bodyA := goal gr; P2.bodyB := Ball.body (ball w) |} w
  = credited (teamLeft w) w /\
  (exists wl vl,
      reset (Some (teamLeft w)) w = Some (tt, wl, []) /\
      (P2.velocity <$> heap wl !! Ball.body (ball w)) = Some vl /\
      (Shared.x vl == BALL_INIT_VELOCITY)%Q /\ (0 < Shared.x vl)%Q /\
      (Shared.y vl == 0)%Q) /\
  (exists wr vr,
      reset (Some (teamRight w)) w = Some (tt, wr, []) /\
      (P2.velocity <$> heap wr !! Ball.body (ball w)) = Some vr /\
      (Shared.x vr == - BALL_INIT_VELOCITY)%Q /\ (Shared.x vr < 0)%Q /\
      (Shared.y vr == 0)%Q).
Proof.
  intros Hr Hg. destruct (reachable_wired w Hr) as (id1 & id2 & Hw).
  destruct (reset_heap id1 id2 (Some (teamLeft w)) w Hw)
    as (wl & Hl & _ & _ & Hvl & _).
  destruct (reset_heap id1 id2 (Some (teamRight w)) w Hw)
    as (wr & Hrr & _ & _ & Hvr & _).
  assert (Hsame : Team.same (teamLeft w) (teamLeft w) = true
                  /\ Team.same (teamRight w) (teamLeft w) = false).
  { destruct Hw as (_ & _ & -> & -> & _). split; reflexivity. }
  destruct Hsame as [Hll Hrl]. rewrite Hll in Hvl. rewrite Hrl in Hvr.
  split; [|split; [|split]].
  - clear - Hw Hg. spell_world w Hw. simpl in Hg. injection Hg as <-.
    reflexivity.
  - clear - Hw Hg. spell_world w Hw. simpl in Hg. injection Hg as <-.
    reflexivity.
  - eexists wl, _. split; [exact Hl|]. split; [exact Hvl|].
    repeat split.
  - eexists wr, _. split; [exact Hrr|]. split; [exact Hvr|].
    repeat split.
Qed.

(** C7, as amended: whatever the history of the match, a reset puts the
    left player at (width / 4, height / 2), the right player at
    (width / 1.25 minus the player DIAMETER, height / 2) and the ball at
    (width / 2, height / 2), which is where the constructor put them. *)
Theorem reset_placement (w : World) (t : option Team.Team)
    (id1 id2 : Shared.Id) (w0 : World) (out0 : list Output) :
  reachable w ->
  constructor id1 id2 = Some (w0, out0) ->
  exists w', reset t w = Some (tt, w', []) /\
    placement w' = placement w0 /\
    placement w'
    = ([ Some {| Shared.x := Shared.width GAME_SIZE / 4;
                 Shared.y := Shared.height GAME_SIZE / 2 |};
         Some {| Shared.x :=
                   Shared.width GAME_SIZE / 1.25 - Player_DIAMETER;
                 Shared.y := Shared.height GAME_SIZE / 2 |} ],
       Some {| Shared.x := Shared.width GAME_SIZE / 2;
               Shared.y := Shared.height GAME_SIZE / 2 |}).
Proof.
  intros Hr Hc. destruct (reachable_wired w Hr) as (i1 & i2 & Hw).
  destruct (reset_heap i1 i2 t w Hw) as (w' & Hreset & _ & Hp & _).
  exists w'. split; [exact Hreset|]. rewrite Hp.
  split; [|reflexivity].
  pose proof (constructor_built id1 id2) as Hb. rewrite Hc in Hb.
  assert (w0 = built id1 id2) as ->.
  { exact (f_equal (fun o : option (World * list Output) =>
                      match o with Some (x, _) => x | None => w0 end) Hb). }
  symmetry. apply built_placement.
Qed.

(** C10: a reset without a team re-centres the players and the ball and
    leaves the velocity of the ball as it was. *)
Theorem reset_no_team_keeps_velocity (w : World) :
  reachable w ->
  exists w' v, reset None w = Some (tt, w', []) /\
    placement w' = setupPlacement /\
    (P2.velocity <$> heap w !! Ball.body (ball w)) = Some v /\
    (P2.velocity <$> heap w' !! Ball.body (ball w')) = Some v.
Proof.
  intros Hr. destruct (reachable_wired w Hr) as (id1 & id2 & Hw).
  destruct (reset_heap id1 id2 None w Hw)
    as (w' & Hreset & Hf & Hp & Hv & [o Ho]).
  exists w', (P2.velocity o). split; [exact Hreset|]. split; [exact Hp|].
  assert (Hball : ball w' = ball w).
  { apply (f_equal ball) in Hf. destruct w, w'. exact Hf. }
  rewrite Hball, Hv, Ho. split; reflexivity.
Qed.

End Goals.

(** ** Commands of the players *)

Section Commands.
Context `{Entities}.

(** C8: for an id that is the [socketId] of no player of the match,
    [movePlayer] and [setPlayerReady] log the condition, leave the world as
    it is and return normally, [setPlayerReady] with [false]. *)
Theorem unknown_player_is_ignored (w : World) (id : Shared.Id)
    (data : IPlayerDirectionUpdate) :
  Forall (fun p => Player.socketId p <> id) (players w) ->
  movePlayer id data w
  = Some (tt, w, [LogInfo "movePlayer - got info about player not in game."])
  /\
  setPlayerReady id w
  = Some (false, w,
          [LogInfo "setPlayerReady - got info about player not in game."]).
Proof.
  intros Hid.
  assert (Hfind : list_find (fun p => Player.socketId p = id) (players w)
                  = None)
    by (apply list_find_None; exact Hid).
  unfold movePlayer, setPlayerReady, bind, gets. rewrite Hfind.
  split; reflexivity.
Qed.

Lemma frame_players (w w' : World) :
  frame w' = frame w -> players w' = players w.
Proof. intros Hf. apply (f_equal players) in Hf. destruct w, w'. exact Hf. Qed.

Lemma marked_snoc (id1 id2 : Shared.Id) (k : nat) (ids : list Shared.Id)
    (id : Shared.Id) :
  marked id1 id2 k (ids ++ [id])
  = marked id1 id2 k ids || finds id1 id2 k id.
Proof.
  unfold marked. rewrite existsb_app. simpl. now rewrite orb_false_r.
Qed.

(** what [setPlayerReady] does to the flags, and what it returns *)
Lemma setPlayerReady_readiness (id1 id2 : Shared.Id) (ids : list Shared.Id)
    (id : Shared.Id) (w : World) :
  readiness id1 id2 ids w ->
  exists w' out,
    setPlayerReady id w
    = Some (known id1 id2 id
            && marked id1 id2 0 (ids ++ [id])
            && marked id1 id2 1 (ids ++ [id]), w', out) /\
    readiness id1 id2 (ids ++ [id]) w'.
Proof.
  intros [Hw Hready]. rewrite !marked_snoc.
  unfold readiness. rewrite !marked_snoc.
  spell_world w Hw. simpl in Hready. injection Hready as -> ->.
  unfold setPlayerReady, bind, gets, known, finds, found. simpl.
  destruct (decide (id1 = id)) as [E1|N1]; simpl;
    [|destruct (decide (id2 = id)) as [E2|N2]; simpl];
    rewrite ?orb_true_r, ?orb_false_r, ?andb_true_r; simpl;
    (eexists _, _; split; [reflexivity|]);
    (split; [repeat split; exact Hlen|]); simpl;
    rewrite ?orb_true_r, ?orb_false_r; reflexivity.
Qed.

Lemma call_readiness (id1 id2 : Shared.Id) (ids : list Shared.Id)
    (c : Call) (w : World) :
  readiness id1 id2 ids w ->
  exists w' out, call c w = Some (tt, w', out) /\
    readiness id1 id2 (ids ++ readyIds [c]) w'.
Proof.
  intros Hrd. pose proof Hrd as [Hw Hready].
  destruct c as [t|dt n script|id data|id|h|]; simpl;
    rewrite ?app_nil_r.
  - destruct (reset_wired id1 id2 t w Hw) as (w' & -> & Hf & Hl).
    eexists _, _. split; [reflexivity|]. split.
    + eapply wired_frame; eassumption.
    + rewrite (frame_players _ _ Hf). exact Hready.
  - destruct (onHeartbeat_wired id1 id2 dt n script w Hw)
      as (w' & out & -> & Hf & Hl).
    eexists _, _. split; [reflexivity|]. split.
    + eapply wired_frame; eassumption.
    + rewrite (frame_players _ _ Hf). exact Hready.
  - destruct (call_wired id1 id2 (CallMovePlayer id data) w Hw)
      as (w' & out & Hc & Hw'). simpl in Hc. rewrite Hc.
    eexists _, _. split; [reflexivity|]. split; [exact Hw'|].
    unfold movePlayer, bind, gets in Hc.
    destruct (list_find _ (players w)) as [[i p]|]; simpl in Hc;
      injection Hc as <- _; [|exact Hready].
    destruct w; simpl in *.
    rewrite map_alter_same by (intros []; reflexivity). exact Hready.
  - destruct (setPlayerReady_readiness id1 id2 ids id w Hrd)
      as (w' & out & Hc & Hrd').
    unfold bind. rewrite Hc. eexists _, _. split; [reflexivity|].
    exact Hrd'.
  - eexists _, _. split; [reflexivity|]. destruct w; exact Hrd.
  - eexists _, _. split; [reflexivity|]. destruct w; exact Hrd.
Qed.

Lemma calls_readiness (id1 id2 : Shared.Id) (cs : list Call) :
  forall (ids : list Shared.Id) (w : World),
    readiness id1 id2 ids w ->
    exists w' out, calls cs w = Some (tt, w', out) /\
      readiness id1 id2 (ids ++ readyIds cs) w'.
Proof.
  induction cs as [|c cs IH]; intros ids w Hrd.
  - exists w, []. split; [reflexivity|]. simpl. rewrite app_nil_r.
    exact Hrd.
  - change (calls (c :: cs) w) with ((call c ;> calls cs) w). unfold bind.
    destruct (call_readiness id1 id2 ids c w Hrd)
      as (w1 & out1 & Hc & Hrd1).
    destruct (IH _ w1 Hrd1) as (w' & out & Hcs & Hrd').
    rewrite Hc, Hcs. eexists _, _. split; [reflexivity|].
    replace (readyIds (c :: cs)) with (readyIds [c] ++ readyIds cs)
      by (simpl; rewrite app_nil_r; reflexivity).
    rewrite app_assoc. exact Hrd'.
Qed.

(** C4: in a match between [id1] and [id2], after any calls [cs], a call
    [setPlayerReady(id)] returns [true] exactly when [id] is the id of a
    player and, this call included, both players have been marked ready;
    so it is [false] while fewer than both are marked, and [true] on the
    call that completes the pair and on every later call with the id of a
    player. *)
Theorem setPlayerReady_true_iff_both_marked (id1 id2 : Shared.Id)
    (cs : list Call) (id : Shared.Id) (w0 w : World)
    (out0 out : list Output) :
  constructor id1 id2 = Some (w0, out0) ->
  calls cs w0 = Some (tt, w, out) ->
  exists (r : bool) (w' : World) (out' : list Output),
    setPlayerReady id w = Some (r, w', out') /\
    (r = true <->
     known id1 id2 id = true /\
     marked id1 id2 0 (readyIds cs ++ [id]) = true /\
     marked id1 id2 1 (readyIds cs ++ [id]) = true).
Proof.
  intros Hc Hcs.
  pose proof (constructor_built id1 id2) as Hb. rewrite Hc in Hb.
  assert (w0 = built id1 id2) as ->.
  { exact (f_equal (fun o : option (World * list Output) =>
                      match o with Some (x, _) => x | None => w0 end) Hb). }
  destruct (built_wired id1 id2) as (Hw0 & _ & _ & Hr0 & _).
  destruct (calls_readiness id1 id2 cs [] (built id1 id2))
    as (w1 & out1 & Hcs1 & Hrd).
  { split; [exact Hw0|]. rewrite Hr0. reflexivity. }
  rewrite Hcs in Hcs1. injection Hcs1 as <- _. simpl in Hrd.
  destruct (setPlayerReady_readiness id1 id2 (readyIds cs) id w Hrd)
    as (w' & out' & Hcall & _).
  eexists _, w', out'. split; [exact Hcall|].
  rewrite !andb_true_iff. tauto.
Qed.

End Commands.

(** ** The tick *)

Section Tick.
Context `{Entities}.

(** the engine's step, run by [runScript], is the step of the relation *)
Lemma runScript_Steps (id1 id2 : Shared.Id) (script : list P2.StepAction) :
  forall w : World, wired id1 id2 w ->
  exists w' out, runScript script w = Some (tt, w', out) /\
    Steps w script w' out /\
    frame w' = frame w /\ length (heap w') = length (heap w).
Proof.
  induction script as [|[f|a b] rest IH]; intros w Hw.
  - exists w, []. split; [reflexivity|]. split; [constructor|].
    split; reflexivity.
  - simpl. unfold bind, modify at 1.
    set (w1 := set_heap _ w).
    assert (Hf1 : frame w1 = frame w) by (destruct w; reflexivity).
    assert (Hl1 : length (heap w1) = length (heap w))
      by (destruct w; simpl; apply integrate_length).
    destruct (IH w1 (wired_frame _ _ _ _ Hw Hf1 Hl1))
      as (w' & out & -> & Hsteps & Hf & Hl).
    exists w', out. split; [reflexivity|].
    split; [apply Steps_update; exact Hsteps|]. split; congruence.
  - simpl. unfold bind at 1 2, gets at 1.
    destruct (P2.beginContact (p2World w) && P2.inWorld (p2World w) a b)
      eqn:Hcond.
    + apply andb_true_iff in Hcond as [Hbc Hin]. unfold P2.inWorld in Hin.
      apply andb_true_iff in Hin as [Ha Hb].
      apply bool_decide_eq_true in Ha, Hb.
      destruct (beginContactListener_frame id1 id2 w
                  {| P2.bodyA := a; P2.bodyB := b |} Hw)
        as (w1 & out1 & Hl1 & Hf1 & Hlen1).
      rewrite Hl1.
      destruct (IH w1 (wired_frame _ _ _ _ Hw Hf1 Hlen1))
        as (w' & out & -> & Hsteps & Hf & Hl).
      exists w', (out1 ++ out). split; [reflexivity|].
      split; [eapply Steps_contact; eassumption|]. split; congruence.
    + destruct (IH w Hw) as (w' & out & Hrun & Hsteps & Hf & Hl).
      unfold ret at 1. rewrite Hrun.
      exists w', out. split; [reflexivity|].
      split; [|split; assumption].
      apply Steps_dropped; [|exact Hsteps].
      apply andb_false_iff in Hcond as [Hbc|Hin]; [left; exact Hbc|right].
      unfold P2.inWorld in Hin. apply andb_false_iff in Hin as [Ha|Hb].
      * left. apply bool_decide_eq_false in Ha. exact Ha.
      * right. apply bool_decide_eq_false in Hb. exact Hb.
Qed.

(** what the two passes before the step leave, on a wired world *)
Lemma preStep_wired (id1 id2 : Shared.Id) (w : World) :
  wired id1 id2 w ->
  Forall (fun p =>
            exists v,
              (P2.velocity <$> heap w !! Player.body p) = Some v /\
              (P2.velocity <$> heap (preStep w) !! Player.body p)
              = Some (Player_applyDirection (Player.direction p) v))
         (players w) /\
  (exists vb,
      (P2.velocity <$> heap w !! Ball.body (ball w)) = Some vb /\
      (P2.velocity <$> heap (preStep w) !! Ball.body (ball w))
      = Some (Ball_constrainVelocity vb)) /\
  map P2.position (heap (preStep w)) = map P2.position (heap w) /\
  (forall i : P2.BodyId,
      i <> Ball.body (ball w) ->
      Forall (fun p => i <> Player.body p) (players w) ->
      heap (preStep w) !! i = heap w !! i).
Proof.
  intros Hw. spell_world w Hw. split; [|split; [|split]].
  - spell_heap hp Hlen. repeat constructor; eexists; split; reflexivity.
  - spell_heap hp Hlen. eexists. split; reflexivity.
  - unfold preStep. simpl. unfold Ball.onUpdate, Player.onUpdate.
    rewrite !map_alter_same by (intros []; reflexivity). reflexivity.
  - intros i Hi Hps. unfold preStep. simpl.
    unfold Ball.onUpdate, Player.onUpdate. simpl in *.
    inversion Hps as [|? ? H4 Hps']; subst.
    inversion Hps' as [|? ? H5 _]; subst. simpl in *.
    rewrite !list_lookup_alter_ne by congruence. reflexivity.
Qed.

Lemma onHeartbeatBy_onHeartbeat (engine : Engine) (timeStep : Q)
    (maxSubSteps : Z) (w : World) :
  onHeartbeatBy engine timeStep maxSubSteps w
  = onHeartbeat timeStep maxSubSteps
      (engine timeStep timeStep maxSubSteps) w.
Proof. reflexivity. Qed.

(** C5: a heartbeat returns, and on the way (a) gives each player the
    velocity its pending direction asks for, (b) gives the ball the clamp of
    its velocity, leaving every position and every other body as they were,
    and then (c) has the engine make the one step it answers to
    [step(timeStep, timeStep, maxSubSteps)], from the world (a) and (b)
    leave; no field of the world other than the bodies is assigned. *)
Theorem onHeartbeat_order (engine : Engine) (timeStep : Q)
    (maxSubSteps : Z) (w : World) :
  reachable w ->
  exists (pre w' : World) (out : list Output),
    onHeartbeatBy engine timeStep maxSubSteps w = Some (tt, w', out) /\
    onHeartbeat timeStep maxSubSteps (engine timeStep timeStep maxSubSteps) w
    = Some (tt, w', out) /\
    Forall (fun p =>
              exists v,
                (P2.velocity <$> heap w !! Player.body p) = Some v /\
                (P2.velocity <$> heap pre !! Player.body p)
                = Some (Player_applyDirection (Player.direction p) v))
           (players w) /\
    (exists vb,
        (P2.velocity <$> heap w !! Ball.body (ball w)) = Some vb /\
        (P2.velocity <$> heap pre !! Ball.body (ball w))
        = Some (Ball_constrainVelocity vb)) /\
    frame pre = frame w /\
    map P2.position (heap pre) = map P2.position (heap w) /\
    (forall i : P2.BodyId,
        i <> Ball.body (ball w) ->
        Forall (fun p => i <> Player.body p) (players w) ->
        heap pre !! i = heap w !! i) /\
    Steps pre (engine timeStep timeStep maxSubSteps) w' out /\
    frame w' = frame w.
Proof.
  intros Hr. destruct (reachable_wired w Hr) as (id1 & id2 & Hw).
  destruct (preStep_frame w) as [Hf0 Hl0].
  destruct (runScript_Steps id1 id2 (engine timeStep timeStep maxSubSteps)
              (preStep w))
    as (w' & out & Hrun & Hsteps & Hf & _).
  { eapply wired_frame; eassumption. }
  destruct (preStep_wired id1 id2 w Hw) as (Hps & Hb & Hpos & Hrest).
  assert (Hhb : onHeartbeat timeStep maxSubSteps
                  (engine timeStep timeStep maxSubSteps) w
                = Some (tt, w', out)).
  { rewrite onHeartbeat_unfold. exact Hrun. }
  exists (preStep w), w', out.
  split; [rewrite onHeartbeatBy_onHeartbeat; exact Hhb|].
  split; [exact Hhb|]. split; [exact Hps|]. split; [exact Hb|].
  split; [exact Hf0|]. split; [exact Hpos|]. split; [exact Hrest|].
  split; [exact Hsteps|]. congruence.
Qed.

End Tick.

(** ** After [clear] *)

Section Cleared.
Context `{Entities}.

Lemma frame_p2World (w w' : World) :
  frame w' = frame w -> p2World w' = p2World w.
Proof. intros Hf. apply (f_equal p2World) in Hf. destruct w, w'. exact Hf. Qed.

Lemma frame_goalEmitter (w w' : World) :
  frame w' = frame w -> goalEmitter w' = goalEmitter w.
Proof.
  intros Hf. apply (f_equal goalEmitter) in Hf. destruct w, w'. exact Hf.
Qed.

(** an engine without bodies moves nothing and reports nothing *)
Lemma runScript_cleared (script : list P2.StepAction) (w : World) :
  cleared w -> runScript script w = Some (tt, w, []).
Proof.
  intros Hc. induction script as [|[f|a b] rest IH]; simpl.
  - reflexivity.
  - unfold bind, modify. unfold P2.integrate. rewrite Hc. simpl.
    replace (set_heap (heap w) w) with w by (destruct w; reflexivity).
    rewrite IH. reflexivity.
  - unfold bind, gets. unfold P2.inWorld. rewrite Hc. simpl.
    rewrite andb_false_r. unfold ret at 1. rewrite IH. reflexivity.
Qed.

Lemma call_cleared (id1 id2 : Shared.Id) (c : Call) (w : World) :
  wired id1 id2 w -> cleared w ->
  exists w' out, call c w = Some (tt, w', out) /\
    wired id1 id2 w' /\ cleared w' /\
    existsb isGoalEmit out = false /\
    (isOn c = false ->
     TypedEvent.listeners (goalEmitter w) = [] ->
     TypedEvent.listeners (goalEmitter w') = []).
Proof.
  intros Hw Hc. destruct c as [t|dt n script|id data|id|h|]; simpl.
  - destruct (reset_wired id1 id2 t w Hw) as (w' & -> & Hf & Hl).
    eexists _, _. split; [reflexivity|].
    split; [eapply wired_frame; eassumption|].
    unfold cleared.
    rewrite (frame_p2World _ _ Hf), (frame_goalEmitter _ _ Hf).
    repeat split; auto.
  - rewrite onHeartbeat_unfold.
    destruct (preStep_frame w) as [Hf Hl].
    rewrite runScript_cleared
      by (unfold cleared; rewrite (frame_p2World _ _ Hf); exact Hc).
    eexists _, _. split; [reflexivity|].
    split; [eapply wired_frame; eassumption|].
    unfold cleared.
    rewrite (frame_p2World _ _ Hf), (frame_goalEmitter _ _ Hf).
    repeat split; auto.
  - destruct (call_wired id1 id2 (CallMovePlayer id data) w Hw)
      as (w' & out & Hcall & Hw'). simpl in Hcall. rewrite Hcall.
    eexists _, _. split; [reflexivity|]. split; [exact Hw'|].
    unfold movePlayer, bind, gets in Hcall.
    destruct (list_find _ (players w)) as [[i p]|]; simpl in Hcall;
      injection Hcall as <- <-; destruct w;
      (split; [exact Hc|]); (split; [reflexivity|]); intros _ Hnil;
      exact Hnil.
  - destruct (call_wired id1 id2 (CallSetPlayerReady id) w Hw)
      as (w' & out & Hcall & Hw'). simpl in Hcall. rewrite Hcall.
    eexists _, _. split; [reflexivity|]. split; [exact Hw'|].
    unfold setPlayerReady, bind, gets in Hcall.
    destruct (list_find _ (players w)) as [[i p]|]; simpl in Hcall;
      injection Hcall as <- <-; destruct w;
      (split; [exact Hc|]); (split; [reflexivity|]); intros _ Hnil;
      exact Hnil.
  - eexists _, _. split; [reflexivity|]. destruct w.
    split; [exact Hw|]. split; [exact Hc|]. split; [reflexivity|].
    intros Hon. discriminate Hon.
  - eexists _, _. split; [reflexivity|]. destruct w.
    split; [exact Hw|]. repeat split.
Qed.

Lemma calls_cleared (id1 id2 : Shared.Id) (cs : list Call) :
  forall w : World,
    wired id1 id2 w -> cleared w ->
    exists w' out, calls cs w = Some (tt, w', out) /\
      existsb isGoalEmit out = false /\
      (existsb isOn cs = false ->
       TypedEvent.listeners (goalEmitter w) = [] ->
       TypedEvent.listeners (goalEmitter w') = []).
Proof.
  induction cs as [|c cs IH]; intros w Hw Hc.
  - exists w, []. repeat split. auto.
  - change (calls (c :: cs) w) with ((call c ;> calls cs) w). unfold bind.
    destruct (call_cleared id1 id2 c w Hw Hc)
      as (w1 & out1 & Hcall & Hw1 & Hc1 & Hout1 & Hl1).
    destruct (IH w1 Hw1 Hc1) as (w' & out & Hcs & Hout & Hl).
    rewrite Hcall, Hcs. eexists _, _. split; [reflexivity|]. split.
    + rewrite existsb_app, Hout1, Hout. reflexivity.
    + simpl. intros Hon Hnil. apply orb_false_iff in Hon as [Hon1 Hon2].
      auto.
Qed.

(** C9: once [clear] has run, every later call completes (a heartbeat
    included, whatever the engine does), none of them emits a scoring
    event, and as long as nobody registers a listener again the channel has
    none. *)
Theorem no_goal_after_clear (w : World) (cs : list Call) :
  reachable w ->
  exists (w1 w2 : World) (out : list Output),
    clear w = Some (tt, w1, []) /\
    calls cs w1 = Some (tt, w2, out) /\
    existsb isGoalEmit out = false /\
    (existsb isOn cs = false ->
     TypedEvent.listeners (goalEmitter w2) = []).
Proof.
  intros Hr. destruct (reachable_wired w Hr) as (id1 & id2 & Hw).
  destruct (call_wired id1 id2 CallClear w Hw) as (w1 & out1 & Hclear & Hw1).
  simpl in Hclear.
  assert (Hw1c : cleared w1 /\ TypedEvent.listeners (goalEmitter w1) = []
                 /\ out1 = []).
  { unfold clear, bind, modify in Hclear. injection Hclear as <- <-.
    destruct w; repeat split. }
  destruct Hw1c as (Hc1 & Hl1 & ->).
  destruct (calls_cleared id1 id2 cs w1 Hw1 Hc1)
    as (w2 & out & Hcs & Hout & Hl).
  exists w1, w2, out. repeat split; auto.
Qed.

End Cleared.

(** ** The theorems at work on a match between "p1" and "p2" *)

Lemma sampleWorld_built :
  @constructor sampleEntities "p1" "p2" = Some (sampleWorld, []).
Proof. vm_compute. reflexivity. Qed.

Lemma goalMouth_reachable : @reachable sampleEntities goalMouth.
Proof.
  exists "p1", "p2", [CallOnHeartbeat (1 # 60) 10 [P2.Integrate drive]],
    sampleWorld, [], [].
  split; vm_compute; reflexivity.
Qed.

(** Against C2 as stated: in a reachable world with the ball in the mouth
    of the right goal, the listener credits the left team and leaves the ball
    where it is, off the centre of the arena. *)
Lemma goal_contact_does_not_recentre :
  exists w' ev,
    beginContactListener {| P2.bodyA := 14; P2.bodyB := 6 |} goalMouth
    = Some (tt, w', [LogDebug "left GOAL!"; GoalEmit ev []]) /\
    (P2.position <$> heap w' !! 6)
    = Some {| Shared.x := 1088; Shared.y := 300 |} /\
    samePlacement (placement w') (@setupPlacement sampleEntities) = false.
Proof.
  eexists _, _. split; [vm_compute; reflexivity|].
  split; vm_compute; reflexivity.
Qed.

Lemma goal_contact_effect_witness :
  exists w' : World,
    beginContactListener {| P2.bodyA := 14; P2.bodyB := 6 |} goalMouth
    = Some (tt, w',
            [ LogDebug (Team.Side_toString
                          (Team.TeamSide (teamLeft goalMouth)) ++ " GOAL!");
              GoalEmit {| allTeams := {| ITeams.teamLeft := teamLeft goalMouth;
                                         ITeams.teamRight := teamRight goalMouth |};
                          teamThatScored := teamLeft goalMouth |}
                       (TypedEvent.listeners (goalEmitter goalMouth)) ]) /\
    Team.TeamSide (teamLeft goalMouth) = Team.Left /\
    frame w' = frame goalMouth /\
    (P2.velocity <$> heap w' !! Ball.body (ball goalMouth))
    = Some Shared.zero /\
    map P2.position (heap w') = map P2.position (heap goalMouth) /\
    placement w' = placement goalMouth.
Proof.
  apply (@goal_contact_effect sampleEntities goalMouth 1
           {| back := 13; bottom := 12; top := 11; goal := 14 |} 14 6).
  - exact goalMouth_reachable.
  - reflexivity.
  - left. split; reflexivity.
Defined.

Lemma goal_right_then_reset_witness :
  beginContactListener
    {| P2.bodyA := Ball.body (ball goalMouth); P2.bodyB := 14 |} goalMouth
  = credited (teamLeft goalMouth) goalMouth /\
  beginContactListener
    {| P2.bodyA := 14; P2.bodyB := Ball.body (ball goalMouth) |} goalMouth
  = credited (teamLeft goalMouth) goalMouth /\
  (exists wl vl,
      @reset sampleEntities (Some (teamLeft goalMouth)) goalMouth
      = Some (tt, wl, []) /\
      (P2.velocity <$> heap wl !! Ball.body (ball goalMouth)) = Some vl /\
      (Shared.x vl == BALL_INIT_VELOCITY)%Q /\ (0 < Shared.x vl)%Q /\
      (Shared.y vl == 0)%Q) /\
  (exists wr vr,
      @reset sampleEntities (Some (teamRight goalMouth)) goalMouth
      = Some (tt, wr, []) /\
      (P2.velocity <$> heap wr !! Ball.body (ball goalMouth)) = Some vr /\
      (Shared.x vr == - BALL_INIT_VELOCITY)%Q /\ (Shared.x vr < 0)%Q /\
      (Shared.y vr == 0)%Q).
Proof.
  apply (@goal_right_then_reset sampleEntities goalMouth
           {| back := 13; bottom := 12; top := 11; goal := 14 |}).
  - exact goalMouth_reachable.
  - reflexivity.
Defined.

(** Against C7 as stated: with a player of diameter 60 the right player is
    put at x = 900, which is [width / 1.25] minus the diameter, not at
    x = 930, which is [width / 1.25] minus the radius. *)
Lemma reset_right_player_not_at_radius :
  exists w' o,
    @reset sampleEntities None goalMouth = Some (tt, w', []) /\
    heap w' !! 5 = Some o /\
    (Shared.x (P2.position o) == 900)%Q /\
    ~ (Shared.x (P2.position o)
       == Shared.width GAME_SIZE / 1.25 - @Player_DIAMETER sampleEntities / 2)%Q
    /\
    samePlacement (placement w') (@specPlacement sampleEntities) = false.
Proof.
  eexists _, _. split; [vm_compute; reflexivity|].
  split; [vm_compute; reflexivity|].
  split; [reflexivity|]. split; [|vm_compute; reflexivity].
  intros Heq. vm_compute in Heq. discriminate Heq.
Qed.

Lemma reset_placement_witness :
  exists w',
    @reset sampleEntities (Some (teamLeft goalMouth)) goalMouth
    = Some (tt, w', []) /\
    placement w' = placement sampleWorld /\
    placement w'
    = ([ Some {| Shared.x := Shared.width GAME_SIZE / 4;
                 Shared.y := Shared.height GAME_SIZE / 2 |};
         Some {| Shared.x :=
                   Shared.width GAME_SIZE / 1.25
                   - @Player_DIAMETER sampleEntities;
                 Shared.y := Shared.height GAME_SIZE / 2 |} ],
       Some {| Shared.x := Shared.width GAME_SIZE / 2;
               Shared.y := Shared.height GAME_SIZE / 2 |}).
Proof.
  apply (@reset_placement sampleEntities goalMouth
           (Some (teamLeft goalMouth)) "p1" "p2" sampleWorld []).
  - exact goalMouth_reachable.
  - exact sampleWorld_built.
Defined.

Lemma reset_no_team_keeps_velocity_witness :
  exists w' v,
    @reset sampleEntities None goalMouth = Some (tt, w', []) /\
    placement w' = @setupPlacement sampleEntities /\
    (P2.velocity <$> heap goalMouth !! Ball.body (ball goalMouth)) = Some v /\
    (P2.velocity <$> heap w' !! Ball.body (ball w')) = Some v.
Proof.
  apply (@reset_no_team_keeps_velocity sampleEntities goalMouth).
  exact goalMouth_reachable.
Defined.

Example readyAnswers_sample :
  option_map (fun r => fst (fst r))
    (readyAnswers ["p1"; "p1"; "nobody"; "p2"; "p1"; "nobody"; "p2"]
       sampleWorld)
  = Some [false; false; false; true; true; false; true].
Proof. vm_compute. reflexivity. Qed.

(** when both players connect under one id, the second is never found *)
Example readyAnswers_same_id :
  option_map (fun r => fst (fst r))
    (match @constructor sampleEntities "p" "p" with
     | Some (w, _) => readyAnswers ["p"; "p"; "p"] w
     | None => None
     end)
  = Some [false; false; false].
Proof. vm_compute. reflexivity. Qed.

Lemma setPlayerReady_true_iff_both_marked_witness :
  exists (r : bool) (w' : World) (out' : list Output),
    setPlayerReady "p2" oneReady = Some (r, w', out') /\
    (r = true <->
     known "p1" "p2" "p2" = true /\
     marked "p1" "p2" 0 (readyIds [CallSetPlayerReady "p1"] ++ ["p2"]) = true
     /\
     marked "p1" "p2" 1 (readyIds [CallSetPlayerReady "p1"] ++ ["p2"]) = true).
Proof.
  apply (@setPlayerReady_true_iff_both_marked sampleEntities "p1" "p2"
           [CallSetPlayerReady "p1"] "p2" sampleWorld oneReady [] []).
  - exact sampleWorld_built.
  - vm_compute. reflexivity.
Defined.

Lemma unknown_player_is_ignored_witness :
  movePlayer "nobody"
    {| data_direction := {| Shared.x := 1; Shared.y := 0 |} |} sampleWorld
  = Some (tt, sampleWorld,
          [LogInfo "movePlayer - got info about player not in game."])
  /\
  setPlayerReady "nobody" sampleWorld
  = Some (false, sampleWorld,
          [LogInfo "setPlayerReady - got info about player not in game."]).
Proof.
  apply (unknown_player_is_ignored sampleWorld "nobody"
           {| data_direction := {| Shared.x := 1; Shared.y := 0 |} |}).
  repeat constructor; discriminate.
Defined.

Lemma onHeartbeat_order_witness :
  exists (pre w' : World) (out : list Output),
    @onHeartbeatBy sampleEntities sampleEngine (1 # 60) 10 sampleWorld
    = Some (tt, w', out) /\
    @onHeartbeat sampleEntities (1 # 60) 10
      (sampleEngine (1 # 60)%Q (1 # 60)%Q 10%Z) sampleWorld
    = Some (tt, w', out) /\
    Forall (fun p =>
              exists v,
                (P2.velocity <$> heap sampleWorld !! Player.body p) = Some v /\
                (P2.velocity <$> heap pre !! Player.body p)
                = Some (@Player_applyDirection sampleEntities
                          (Player.direction p) v))
           (players sampleWorld) /\
    (exists vb,
        (P2.velocity <$> heap sampleWorld !! Ball.body (ball sampleWorld))
        = Some vb /\
        (P2.velocity <$> heap pre !! Ball.body (ball sampleWorld))
        = Some (@Ball_constrainVelocity sampleEntities vb)) /\
    frame pre = frame sampleWorld /\
    map P2.position (heap pre) = map P2.position (heap sampleWorld) /\
    (forall i : P2.BodyId,
        i <> Ball.body (ball sampleWorld) ->
        Forall (fun p => i <> Player.body p) (players sampleWorld) ->
        heap pre !! i = heap sampleWorld !! i) /\
    Steps pre (sampleEngine (1 # 60)%Q (1 # 60)%Q 10%Z) w' out /\
    frame w' = frame sampleWorld.
Proof.
  apply (@onHeartbeat_order sampleEntities sampleEngine (1 # 60) 10
           sampleWorld).
  exact sampleWorld_reachable.
Defined.

Lemma no_goal_after_clear_witness :
  exists (w1 w2 : World) (out : list Output),
    clear goalMouth = Some (tt, w1, []) /\
    @calls sampleEntities
      [CallOnHeartbeat (1 # 60) 10 [P2.Integrate drive; P2.BeginContact 14 6];
       CallSetPlayerReady "nobody"] w1
    = Some (tt, w2, out) /\
    existsb isGoalEmit out = false /\
    (existsb isOn
       [CallOnHeartbeat (1 # 60) 10 [P2.Integrate drive; P2.BeginContact 14 6];
        CallSetPlayerReady "nobody"] = false ->
     TypedEvent.listeners (goalEmitter w2) = []).
Proof.
  apply (@no_goal_after_clear sampleEntities goalMouth
           [CallOnHeartbeat (1 # 60) 10
              [P2.Integrate drive; P2.BeginContact 14 6];
            CallSetPlayerReady "nobody"]).
  exact goalMouth_reachable.
Defined.

(** * Further properties of the class *)

(** ** Contacts and ticks *)

Section Contacts.
Context `{Entities}.

Lemma populated_frame (w w' : World) :
  populated w -> frame w' = frame w ->
  length (heap w') = length (heap w) -> populated w'.
Proof.
  intros [Hb Hl] Hf Hlen. unfold populated.
  rewrite (frame_p2World _ _ Hf), Hlen. split; assumption.
Qed.

Lemma scoringContact_frame (w w' : World) (act : P2.StepAction) :
  frame w' = frame w -> scoringContact w' act = scoringContact w act.
Proof.
  intros Hf. destruct w, w'. unfold frame, set_heap in Hf. simpl in Hf.
  injection Hf as -> -> -> -> -> -> ->. reflexivity.
Qed.

Lemma goalEvent_frame (w w' : World) (t : Team.Team) :
  frame w' = frame w -> goalEvent w' t = goalEvent w t.
Proof.
  intros Hf. destruct w, w'. unfold frame, set_heap in Hf. simpl in Hf.
  injection Hf as -> -> -> -> -> -> ->. reflexivity.
Qed.

(** the listener emits for the pairs [scoringContact] credits, and for no
    other *)
Lemma beginContactListener_emitted (id1 id2 : Shared.Id) (w : World)
    (a b : P2.BodyId) :
  wired id1 id2 w ->
  exists w' out,
    beginContactListener {| P2.bodyA := a; P2.bodyB := b |} w
    = Some (tt, w', out) /\
    frame w' = frame w /\ length (heap w') = length (heap w) /\
    emitted out
    = match scoringContact w (P2.BeginContact a b) with
      | Some t => [goalEvent w t]
      | None => []
      end.
Proof.
  intros Hw.
  destruct (beginContactListener_frame id1 id2 w
              {| P2.bodyA := a; P2.bodyB := b |} Hw)
    as (w' & out & Hl & Hf & Hlen).
  exists w', out. split; [exact Hl|]. split; [exact Hf|].
  split; [exact Hlen|]. clear Hf Hlen. revert Hl.
  spell_world w Hw. unfold_methods. simpl.
  destruct (Nat.eqb a 10 || Nat.eqb b 10); simpl;
    [|destruct (Nat.eqb a 14 || Nat.eqb b 14); simpl];
    destruct (Nat.eqb a 6 || Nat.eqb b 6); simpl;
    intros Hl; injection Hl as _ <-; reflexivity.
Qed.

Lemma scoringContact_inWorld (id1 id2 : Shared.Id) (w : World)
    (a b : P2.BodyId) (t : Team.Team) :
  wired id1 id2 w -> populated w ->
  scoringContact w (P2.BeginContact a b) = Some t ->
  P2.beginContact (p2World w) && P2.inWorld (p2World w) a b = true.
Proof.
  intros Hw [Hb Hl] Hs. unfold P2.inWorld. rewrite Hb, Hl.
  assert (Hlen : length (heap w) = 15) by (destruct Hw as (_&_&_&_&_&_&E); exact E).
  rewrite Hlen. clear Hb Hl Hlen. spell_world w Hw. simpl in Hs.
  destruct (Nat.eqb_spec a 6), (Nat.eqb_spec b 6), (Nat.eqb_spec a 10),
    (Nat.eqb_spec b 10), (Nat.eqb_spec a 14), (Nat.eqb_spec b 14);
    subst; simpl in Hs; try discriminate Hs; try congruence;
    vm_compute; reflexivity.
Qed.

End Contacts.

Section Ticks.
Context `{Entities}.

Lemma scores_frame (w w' : World) (script : list P2.StepAction) :
  frame w' = frame w -> scores w' script = scores w script.
Proof.
  intros Hf. destruct w, w'. unfold frame, set_heap in Hf. simpl in Hf.
  injection Hf as -> -> -> -> -> -> ->. reflexivity.
Qed.

Lemma runScript_emitted (id1 id2 : Shared.Id) (script : list P2.StepAction) :
  forall w : World, wired id1 id2 w -> populated w ->
  exists w' out, runScript script w = Some (tt, w', out) /\
    frame w' = frame w /\ length (heap w') = length (heap w) /\
    emitted out = scores w script.
Proof.
  induction script as [|[f|a b] rest IH]; intros w Hw Hp.
  - exists w, []. repeat split.
  - simpl. unfold bind, modify at 1.
    set (w1 := set_heap _ w).
    assert (Hf1 : frame w1 = frame w) by (destruct w; reflexivity).
    assert (Hl1 : length (heap w1) = length (heap w))
      by (destruct w; simpl; apply integrate_length).
    destruct (IH w1 (wired_frame _ _ _ _ Hw Hf1 Hl1)
                (populated_frame _ _ Hp Hf1 Hl1))
      as (w' & out & -> & Hf & Hl & Hout).
    exists w', out. split; [reflexivity|]. split; [congruence|].
    split; [congruence|]. rewrite Hout. apply (scores_frame _ _ rest Hf1).
  - assert (Hstep : exists w1 out1,
               (if P2.beginContact (p2World w) && P2.inWorld (p2World w) a b
                then beginContactListener {| P2.bodyA := a; P2.bodyB := b |}
                else ret tt) w = Some (tt, w1, out1) /\
               frame w1 = frame w /\ length (heap w1) = length (heap w) /\
               emitted out1
               = match scoringContact w (P2.BeginContact a b) with
                 | Some t => [goalEvent w t]
                 | None => []
                 end).
    { destruct (beginContactListener_emitted id1 id2 w a b Hw)
        as (w1 & out1 & Hl & Hf & Hlen & Hout).
      destruct (scoringContact w (P2.BeginContact a b)) as [t|] eqn:Hs.
      - rewrite (scoringContact_inWorld id1 id2 w a b t Hw Hp Hs).
        exists w1, out1. repeat split; assumption.
      - destruct (P2.beginContact (p2World w) && P2.inWorld (p2World w) a b).
        + exists w1, out1. repeat split; assumption.
        + exists w, []. repeat split. }
    destruct Hstep as (w1 & out1 & Hstep & Hf1 & Hl1 & Hout1).
    destruct (IH w1 (wired_frame _ _ _ _ Hw Hf1 Hl1)
                (populated_frame _ _ Hp Hf1 Hl1))
      as (w' & out & Hrest & Hf & Hl & Hout).
    simpl. unfold bind at 1 2, gets at 1. rewrite Hstep, Hrest.
    eexists _, _. split; [reflexivity|]. split; [congruence|].
    split; [congruence|].
    unfold emitted in *. rewrite app_nil_l, List.filter_app, Hout1, Hout.
    rewrite (scores_frame _ _ rest Hf1). unfold scores. simpl.
    destruct (match goals w with
              | g0 :: g1 :: _ => _
              | _ => None
              end); reflexivity.
Qed.

(** X1: in a reachable world whose bodies are all in the physics world, a
    heartbeat completes and emits exactly one scoring event for each
    notified contact of the ball with a goal sensor, in the order of the
    notifications, crediting the opponent of the sensor's team; no other
    notification emits anything. *)
Theorem heartbeat_scoring_events (timeStep : Q) (maxSubSteps : Z)
    (script : list P2.StepAction) (w : World) :
  reachable w -> populated w ->
  exists w' out,
    onHeartbeat timeStep maxSubSteps script w = Some (tt, w', out) /\
    emitted out = scores w script.
Proof.
  intros Hr Hp. destruct (reachable_wired w Hr) as (id1 & id2 & Hw).
  rewrite onHeartbeat_unfold.
  destruct (preStep_frame w) as [Hf0 Hl0].
  destruct (runScript_emitted id1 id2 script (preStep w))
    as (w' & out & Hrun & _ & _ & Hout).
  { eapply wired_frame; eassumption. }
  { eapply populated_frame; eassumption. }
  exists w', out. split; [exact Hrun|].
  rewrite Hout. apply scores_frame. exact Hf0.
Qed.

(** X2: a contact in which neither body is a goal sensor changes nothing
    and writes nothing, the ball hitting a post, a wall or a player
    included. *)
Theorem contact_without_sensor (w : World) (gl gr : IGoal)
    (a b : P2.BodyId) :
  reachable w ->
  goals w !! 0 = Some gl -> goals w !! 1 = Some gr ->
  a <> goal gl -> b <> goal gl -> a <> goal gr -> b <> goal gr ->
  beginContactListener {| P2.bodyA := a; P2.bodyB := b |} w
  = Some (tt, w, []).
Proof.
  intros Hr Hgl Hgr Ha0 Hb0 Ha1 Hb1.
  destruct (reachable_wired w Hr) as (id1 & id2 & Hw). clear Hr.
  spell_world w Hw. simpl in Hgl, Hgr.
  injection Hgl as <-. injection Hgr as <-. simpl in *.
  apply Nat.eqb_neq in Ha0, Hb0, Ha1, Hb1.
  unfold_methods. simpl. rewrite Ha0, Hb0, Ha1, Hb1. reflexivity.
Qed.

(** X3: once the physics world holds no body, a heartbeat does not depend
    on the engine: it applies the players' directions and the ball's clamp
    to the velocities, moves no body and writes nothing. *)
Theorem heartbeat_without_bodies (timeStep : Q) (maxSubSteps : Z)
    (script : list P2.StepAction) (w : World) :
  cleared w ->
  onHeartbeat timeStep maxSubSteps script w = Some (tt, preStep w, []) /\
  map P2.position (heap (preStep w)) = map P2.position (heap w).
Proof.
  intros Hc. split.
  - rewrite onHeartbeat_unfold.
    apply runScript_cleared. unfold cleared.
    rewrite (frame_p2World _ _ (proj1 (preStep_frame w))). exact Hc.
  - clear Hc. unfold preStep. destruct w as [ge gs pw ps b tl tr hp]. simpl.
    unfold Ball.onUpdate. rewrite map_alter_same by (intros []; reflexivity).
    revert hp. induction ps as [|p ps IH]; intros hp; simpl; [reflexivity|].
    rewrite IH. unfold Player.onUpdate.
    apply map_alter_same. intros []; reflexivity.
Qed.

(** X4: [reset(team)] sends the ball towards positive x exactly when
    [team] is the object held in [teamLeft]; any other team object,
    whatever its side, sends it towards negative x. *)
Theorem reset_direction_by_identity (w : World) (t : Team.Team) :
  reachable w ->
  exists w' v,
    reset (Some t) w = Some (tt, w', []) /\
    (P2.velocity <$> heap w' !! Ball.body (ball w)) = Some v /\
    (Shared.y v == 0)%Q /\
    (Team.ref t = Team.ref (teamLeft w) ->
     (Shared.x v == BALL_INIT_VELOCITY)%Q) /\
    (Team.ref t <> Team.ref (teamLeft w) ->
     (Shared.x v == - BALL_INIT_VELOCITY)%Q).
Proof.
  intros Hr. destruct (reachable_wired w Hr) as (id1 & id2 & Hw).
  destruct (reset_heap id1 id2 (Some t) w Hw) as (w' & Hreset & _ & _ & Hv & _).
  eexists w', _. split; [exact Hreset|]. split; [exact Hv|]. simpl.
  split; [reflexivity|]. unfold Team.same. split; intros Href.
  - apply Nat.eqb_eq in Href. rewrite Href. reflexivity.
  - apply Nat.eqb_neq in Href. rewrite Href. reflexivity.
Qed.

(** X5: a reset is idempotent: on the world a reset leaves, the same reset
    changes nothing. *)
Theorem reset_twice (w : World) (t : option Team.Team) :
  reachable w ->
  exists w', reset t w = Some (tt, w', []) /\ reset t w' = Some (tt, w', []).
Proof.
  intros Hr. destruct (reachable_wired w Hr) as (id1 & id2 & Hw). clear Hr.
  spell_world w Hw. spell_heap hp Hlen.
  destruct t as [t|]; eexists; (split; [reflexivity|]); reflexivity.
Qed.

End Ticks.

(** ** Commands, once more *)

Section MoreCommands.
Context `{Entities}.

(** an update that keeps the ids keeps what [find] finds *)
Lemma list_find_alter_index {A : Type} (P : A -> Prop)
    `{forall x, Decision (P x)} (f : A -> A) (k : nat) (l : list A) :
  (forall x, P (f x) <-> P x) ->
  fst <$> list_find P (alter f k l) = fst <$> list_find P l.
Proof.
  intros Hf. revert k. induction l as [|x l IH]; intros [|k]; simpl;
    try reflexivity.
  - destruct (decide (P (f x))) as [Hy|Hn], (decide (P x)) as [Hy'|Hn'];
      try reflexivity; exfalso; [apply Hn', Hf, Hy|apply Hn, Hf, Hy'].
  - destruct (decide (P x)); [reflexivity|].
    specialize (IH k). change (alter f k l) with (list_alter f k l) in IH.
    destruct (list_find P (list_alter f k l)) as [[i y]|],
      (list_find P l) as [[j z]|]; cbn in *; congruence.
Qed.

Lemma movePlayer_index (id : Shared.Id) (data : IPlayerDirectionUpdate)
    (w : World) :
  outcome (movePlayer id data w)
  = Some (tt,
          match fst <$> list_find (fun p => Player.socketId p = id)
                          (players w) with
          | Some i =>
              set_players
                (alter (Player.setDirection (data_direction data)) i
                   (players w)) w
          | None => w
          end).
Proof.
  unfold movePlayer, bind, gets.
  destruct (list_find _ (players w)) as [[i p]|]; reflexivity.
Qed.

Lemma setPlayerReady_index (id : Shared.Id) (w : World) :
  outcome (setPlayerReady id w)
  = match fst <$> list_find (fun p => Player.socketId p = id)
                    (players w) with
    | Some i =>
        Some (forallb Player.isReady
                (alter (Player.set_isReady true) i (players w)),
              set_players (alter (Player.set_isReady true) i (players w)) w)
    | None => Some (false, w)
    end.
Proof.
  unfold setPlayerReady, bind, gets.
  destruct (list_find _ (players w)) as [[i p]|]; destruct w; reflexivity.
Qed.

Lemma outcome_bind {A B : Type} (m : M A) (k : A -> M B) (w : World) :
  outcome (bind m k w)
  = match outcome (m w) with
    | Some (a, w1) => outcome (k a w1)
    | None => None
    end.
Proof.
  unfold bind, outcome. destruct (m w) as [[[a w1] o1]|]; [|reflexivity].
  destruct (k a w1) as [[[b w2] o2]|]; reflexivity.
Qed.

Lemma forallb_alter_same {A : Type} (p : A -> bool) (g : A -> A) (i : nat)
    (l : list A) :
  (forall a, p (g a) = p a) -> forallb p (alter g i l) = forallb p l.
Proof.
  intros Hg. revert i. induction l as [|a l IH]; intros [|i]; simpl;
    try reflexivity.
  - now rewrite Hg.
  - f_equal. apply IH.
Qed.

(** X6: of two [movePlayer] calls for the same id the later one decides:
    the world they leave is the world the later call alone leaves. *)
Theorem movePlayer_last_wins (id : Shared.Id)
    (d1 d2 : IPlayerDirectionUpdate) (w : World) :
  outcome ((movePlayer id d1 ;> movePlayer id d2) w)
  = outcome (movePlayer id d2 w).
Proof.
  rewrite outcome_bind, (movePlayer_index id d1 w). cbv beta iota.
  rewrite !movePlayer_index.
  pose proof (list_find_alter_index
                (fun p => Player.socketId p = id)
                (Player.setDirection (data_direction d1))) as Hfind.
  destruct w as [ge gs pw ps b tl tr hp]. simpl in *.
  destruct (fst <$> list_find (fun p => Player.socketId p = id) ps)
    as [i|] eqn:Hi; simpl.
  - rewrite (Hfind i ps), Hi by (intros []; reflexivity).
    unfold set_players. simpl. do 3 f_equal.
    rewrite list_alter_alter_eq. apply list_alter_ext; [|reflexivity].
    intros [] _. reflexivity.
  - rewrite Hi. reflexivity.
Qed.

(** X7: [movePlayer] and [setPlayerReady] do not interfere: in either
    order they leave the same world, and [setPlayerReady] gives the same
    answer. *)
Theorem movePlayer_setPlayerReady_commute (a b : Shared.Id)
    (data : IPlayerDirectionUpdate) (w : World) :
  outcome ((movePlayer a data ;> setPlayerReady b) w)
  = outcome (readyThenMove b a data w).
Proof.
  unfold readyThenMove.
  rewrite outcome_bind, (movePlayer_index a data w). cbv beta iota.
  rewrite (outcome_bind (setPlayerReady b)), (setPlayerReady_index b w).
  rewrite setPlayerReady_index.
  pose proof (list_find_alter_index
                (fun p => Player.socketId p = b)
                (Player.setDirection (data_direction data))) as Hb.
  pose proof (list_find_alter_index
                (fun p => Player.socketId p = a)
                (Player.set_isReady true)) as Ha.
  destruct w as [ge gs pw ps bl tl tr hp]. simpl.
  destruct (fst <$> list_find (fun p => Player.socketId p = a) ps)
    as [i|] eqn:Hi;
    destruct (fst <$> list_find (fun p => Player.socketId p = b) ps)
      as [j|] eqn:Hj; simpl.
  - rewrite (Hb i ps), Hj by (intros []; reflexivity).
    rewrite outcome_bind, movePlayer_index. simpl.
    rewrite (Ha j ps), Hi by (intros []; reflexivity). simpl.
    assert (Hswap :
              alter (Player.set_isReady true) j
                (alter (Player.setDirection (data_direction data)) i ps)
              = alter (Player.setDirection (data_direction data)) i
                  (alter (Player.set_isReady true) j ps)).
    { destruct (decide (i = j)) as [->|Hne].
      - rewrite !list_alter_alter_eq. apply list_alter_ext; [|reflexivity].
        intros [] _. reflexivity.
      - apply list_alter_alter_ne. congruence. }
    rewrite Hswap.
    rewrite (forallb_alter_same Player.isReady
               (Player.setDirection (data_direction data)))
      by (intros []; reflexivity).
    reflexivity.
  - rewrite (Hb i ps), Hj by (intros []; reflexivity).
    rewrite outcome_bind, movePlayer_index. simpl. rewrite Hi. reflexivity.
  - rewrite Hj.
    rewrite outcome_bind, movePlayer_index. simpl.
    rewrite (Ha j ps), Hi by (intros []; reflexivity). reflexivity.
  - rewrite Hj.
    rewrite outcome_bind, movePlayer_index. simpl. rewrite Hi. reflexivity.
Qed.

Lemma marked_same_id (id : Shared.Id) (ids : list Shared.Id) :
  marked id id 1 ids = false.
Proof.
  unfold marked. induction ids as [|x ids IH]; simpl; [reflexivity|].
  rewrite IH, orb_false_r. unfold finds, found.
  destruct (decide (id = x)); reflexivity.
Qed.

(** X8: the constructor does not check the ids; in a match built with the
    same id for both players, [find] never reaches the second player, and
    [setPlayerReady] answers [false] to every call, after any history. *)
Theorem same_id_never_ready (id : Shared.Id) (cs : list Call) (id' : Shared.Id)
    (w0 w : World) (out0 out : list Output) :
  constructor id id = Some (w0, out0) ->
  calls cs w0 = Some (tt, w, out) ->
  exists w' out', setPlayerReady id' w = Some (false, w', out').
Proof.
  intros Hc Hcs.
  pose proof (constructor_built id id) as Hb. rewrite Hc in Hb.
  assert (w0 = built id id) as ->.
  { exact (f_equal (fun o : option (World * list Output) =>
                      match o with Some (x, _) => x | None => w0 end) Hb). }
  destruct (built_wired id id) as (Hw0 & _ & _ & Hr0 & _).
  destruct (calls_readiness id id cs [] (built id id))
    as (w1 & out1 & Hcs1 & Hrd).
  { split; [exact Hw0|]. rewrite Hr0. reflexivity. }
  rewrite Hcs in Hcs1. injection Hcs1 as <- _. simpl in Hrd.
  destruct (setPlayerReady_readiness id id (readyIds cs) id' w Hrd)
    as (w' & out' & Hcall & _).
  rewrite marked_same_id, andb_false_r in Hcall.
  exists w', out'. exact Hcall.
Qed.

End MoreCommands.

(** ** Staging, references and the arena *)

Section Staging.
Context `{Entities}.

Lemma calls_from_constructor (id1 id2 : Shared.Id) (cs : list Call)
    (w0 w : World) (out0 out : list Output) :
  constructor id1 id2 = Some (w0, out0) ->
  calls cs w0 = Some (tt, w, out) ->
  wired id1 id2 w.
Proof.
  intros Hc Hcs.
  pose proof (constructor_built id1 id2) as Hb. rewrite Hc in Hb.
  assert (w0 = built id1 id2) as ->.
  { exact (f_equal (fun o : option (World * list Output) =>
                      match o with Some (x, _) => x | None => w0 end) Hb). }
  destruct (built_wired id1 id2) as (Hw0 & _).
  destruct (calls_wired id1 id2 cs _ Hw0) as (w' & out' & Hcs' & Hw').
  rewrite Hcs in Hcs'. injection Hcs' as <- _. exact Hw'.
Qed.



Lemma call_p2World (id1 id2 : Shared.Id) (c : Call) (w w' : World)
    (out : list Output) :
  wired id1 id2 w -> call c w = Some (tt, w', out) ->
  p2World w' = p2World w \/ p2World w' = P2.clear (p2World w).
Proof.
  intros Hw Hcall. destruct c as [t|dt n script|id data|id|h|];
    simpl in Hcall.
  - destruct (reset_wired id1 id2 t w Hw) as (w1 & Hr & Hf & _).
    rewrite Hr in Hcall. injection Hcall as <- _.
    left. apply frame_p2World. exact Hf.
  - destruct (onHeartbeat_wired id1 id2 dt n script w Hw)
      as (w1 & out1 & Hh & Hf & _).
    rewrite Hh in Hcall. injection Hcall as <- _.
    left. apply frame_p2World. exact Hf.
  - unfold movePlayer, bind, gets in Hcall.
    destruct (list_find _ (players w)) as [[i p]|]; simpl in Hcall;
      injection Hcall as <- _; destruct w; left; reflexivity.
  - unfold setPlayerReady, bind, gets in Hcall.
    destruct (list_find _ (players w)) as [[i p]|]; simpl in Hcall;
      injection Hcall as <- _; destruct w; left; reflexivity.
  - injection Hcall as <- _. destruct w; left; reflexivity.
  - injection Hcall as <- _. destruct w; right; reflexivity.
Qed.

Lemma calls_p2World (id1 id2 : Shared.Id) (cs : list Call) :
  forall (w w' : World) (out : list Output),
    wired id1 id2 w -> calls cs w = Some (tt, w', out) ->
    p2World w' = p2World w \/ p2World w' = P2.clear (p2World w).
Proof.
  induction cs as [|c cs IH]; intros w w' out Hw Hcs.
  - injection Hcs as <- _. left. reflexivity.
  - change (calls (c :: cs) w) with ((call c ;> calls cs) w) in Hcs.
    unfold bind in Hcs.
    destruct (call_wired id1 id2 c w Hw) as (w1 & out1 & Hc & Hw1).
    rewrite Hc in Hcs.
    destruct (calls cs w1) as [[[[] w2] out2]|] eqn:Hrest; [|discriminate].
    injection Hcs as <- _.
    destruct (call_p2World id1 id2 c w w1 out1 Hw Hc) as [E1|E1],
      (IH w1 w2 out2 Hw1 Hrest) as [E2|E2]; rewrite E2, E1;
      auto.
Qed.

(** X11: in every reachable world the references to the bodies of the
    players, of the ball and of the goal obstacles are pairwise distinct
    and point into the store; the contact listener stays installed; and the
    physics world holds either every body of the store or, once cleared,
    none. *)
Theorem reference_integrity (w : World) :
  reachable w ->
  NoDup (entityBodies w) /\
  Forall (fun b => is_Some (heap w !! b)) (entityBodies w) /\
  P2.beginContact (p2World w) = true /\
  (populated w \/ cleared w).
Proof.
  intros (id1 & id2 & cs & w0 & out0 & out & Hc & Hcs).
  pose proof (calls_from_constructor id1 id2 cs w0 w out0 out Hc Hcs) as Hw.
  pose proof (constructor_built id1 id2) as Hb. rewrite Hc in Hb.
  assert (w0 = built id1 id2) as ->.
  { exact (f_equal (fun o : option (World * list Output) =>
                      match o with Some (x, _) => x | None => w0 end) Hb). }
  destruct (built_wired id1 id2) as (Hw0 & Hbodies & Hbc & _).
  assert (Hpw : P2.beginContact (p2World w) = true /\
                (P2.bodies (p2World w) = seq 0 15 \/
                 P2.bodies (p2World w) = [])).
  { pose proof (calls_p2World id1 id2 cs _ w out Hw0 Hcs) as E.
    revert Hbodies Hbc E. generalize (p2World (built id1 id2)) as pw0.
    intros pw0 Hbodies Hbc [E|E]; rewrite E.
    - split; [exact Hbc|left; exact Hbodies].
    - destruct pw0. split; [exact Hbc|right; reflexivity]. }
  clear Hc Hcs Hb Hw0 Hbodies Hbc. destruct Hpw as [Hbc Hbodies].
  assert (Hlen15 : length (heap w) = 15)
    by (destruct Hw as (_&_&_&_&_&_&E); exact E).
  split; [|split; [|split; [exact Hbc|]]].
  - clear Hbc Hbodies Hlen15. spell_world w Hw.
    change (NoDup (seq 4 11)). apply NoDup_seq.
  - clear Hbc Hbodies Hlen15. spell_world w Hw. spell_heap hp Hlen.
    repeat constructor; eexists; reflexivity.
  - destruct Hbodies as [E|E]; [left|right; exact E].
    split; [|exact Hbc]. rewrite Hlen15. exact E.
Qed.

End Staging.

Section Arena.
Context `{Entities}.

Lemma positionOf_last (st : list P2.Body) (b : P2.Body) :
  positionOf (st ++ [b]) (length st) = Some (P2.position b).
Proof. unfold positionOf. rewrite list_lookup_middle; reflexivity. Qed.

Lemma positionOf_before (st : list P2.Body) (b : P2.Body) (i : nat) :
  i < length st -> positionOf (st ++ [b]) i = positionOf st i.
Proof. intros Hi. unfold positionOf. rewrite lookup_app_l; [reflexivity|exact Hi]. Qed.

(** where the obstacles of a goal are, whatever the arena built so far *)
Lemma goalLayout_eq (team : Team.Team) (a : Arena) :
  goalLayout team a
  = let x : Q :=
      match Team.TeamSide team with
      | Team.Right => (Shared.width GAME_SIZE - Shared.width GAME_SIZE / 10)%Q
      | Team.Left => (Shared.width GAME_SIZE / 10)%Q
      end in
    [ Some {| Shared.x := x;
              Shared.y := Shared.height GAME_SIZE / 2 - 125 / 2 - 30 / 2 |};
      Some {| Shared.x := x;
              Shared.y := Shared.height GAME_SIZE / 2 + 125 / 2 + 30 / 2 |};
      Some {| Shared.x := x - (match Team.TeamSide team with
                               | Team.Left => 20 / 2 + 30 / 2
                               | Team.Right => - (20 / 2 + 30 / 2)
                               end);
              Shared.y := Shared.height GAME_SIZE / 2 |};
      Some {| Shared.x := x - (match Team.TeamSide team with
                               | Team.Left => 4 + 4
                               | Team.Right => - (4 + 4)
                               end);
              Shared.y := Shared.height GAME_SIZE / 2 |} ].
Proof.
  destruct a as [pw st].
  unfold goalLayout, addGoals, addBodyAt, P2.alloc.
  cbn [fst snd map top bottom back goal].
  repeat match goal with
         | |- context [positionOf (?s ++ [?b]) ?i] =>
             first
               [ replace i with (length s)
                   by (rewrite ?length_app; cbn [length]; lia);
                 rewrite (positionOf_last s b)
               | rewrite (positionOf_before s b i)
                   by (rewrite ?length_app; cbn [length]; lia) ]
         end.
  reflexivity.
Qed.

(** X12: the two goals are mirror images of each other in the vertical
    axis of the arena, whatever was built before them; in each goal the
    sensor stands between the back wall and the line of the posts, on the
    team's own half, level with the middle of the mouth the posts leave. *)
Theorem addGoals_geometry (tl tr : Team.Team) (al ar : Arena) :
  Team.TeamSide tl = Team.Left -> Team.TeamSide tr = Team.Right ->
  exists tL bL kL sL tR bR kR sR : Shared.Vector2D,
    goalLayout tl al = [Some tL; Some bL; Some kL; Some sL] /\
    goalLayout tr ar = [Some tR; Some bR; Some kR; Some sR] /\
    Forall2 mirrored (goalLayout tl al) (goalLayout tr ar) /\
    (Shared.x kL < Shared.x sL /\ Shared.x sL < Shared.x tL /\
     Shared.x tL == Shared.x bL /\
     Shared.x tL < Shared.width GAME_SIZE / 2)%Q /\
    (Shared.x tR < Shared.x sR /\ Shared.x sR < Shared.x kR /\
     Shared.x tR == Shared.x bR /\
     Shared.width GAME_SIZE / 2 < Shared.x tR)%Q /\
    (Shared.y tL < Shared.y sL /\ Shared.y sL < Shared.y bL /\
     Shared.y sL == Shared.y kL /\
     Shared.y tL + Shared.y bL == 2 * Shared.y sL)%Q.
Proof.
  intros Hl Hr. rewrite !goalLayout_eq, Hl, Hr. cbv zeta.
  eexists _, _, _, _, _, _, _, _.
  split; [reflexivity|]. split; [reflexivity|].
  split; [|repeat split].
  repeat constructor; vm_compute; reflexivity.
Qed.

End Arena.

Section Built.
Context `{Entities}.

(** X13: for any two ids, equal or not, the constructor returns without
    logging; the world it builds has the two players in argument order, not
    ready and without direction, no listener on the channel, fifteen bodies
    all at rest and all in the physics world, and the players and the ball
    at their start places. *)
Theorem constructor_postcondition (id1 id2 : Shared.Id) :
  exists w0,
    constructor id1 id2 = Some (w0, []) /\
    map Player.socketId (players w0) = [id1; id2] /\
    map Player.isReady (players w0) = [false; false] /\
    map Player.direction (players w0) = [Shared.zero; Shared.zero] /\
    TypedEvent.listeners (goalEmitter w0) = [] /\
    populated w0 /\ length (heap w0) = 15 /\
    map P2.velocity (heap w0) = repeat Shared.zero 15 /\
    placement w0 = setupPlacement.
Proof.
  exists (built id1 id2). split; [apply constructor_built|].
  unfold populated.
  repeat split; try apply built_placement; vm_compute; reflexivity.
Qed.

End Built.

(** ** The further properties at work *)

Lemma populated_goalMouth : populated goalMouth.
Proof. split; reflexivity. Qed.

Example scores_busyScript :
  scores goalMouth busyScript
  = [goalEvent goalMouth (teamLeft goalMouth);
     goalEvent goalMouth (teamRight goalMouth)].
Proof. reflexivity. Qed.

Lemma heartbeat_scoring_events_witness :
  exists w' out,
    @onHeartbeat sampleEntities (1 # 60) 10 busyScript goalMouth
    = Some (tt, w', out) /\
    emitted out = scores goalMouth busyScript.
Proof.
  apply (@heartbeat_scoring_events sampleEntities (1 # 60) 10 busyScript
           goalMouth).
  - exact goalMouth_reachable.
  - exact populated_goalMouth.
Defined.

Lemma contact_without_sensor_witness :
  beginContactListener {| P2.bodyA := 6; P2.bodyB := 7 |} goalMouth
  = Some (tt, goalMouth, []).
Proof.
  apply (@contact_without_sensor sampleEntities goalMouth
           {| back := 9; bottom := 8; top := 7; goal := 10 |}
           {| back := 13; bottom := 12; top := 11; goal := 14 |} 6 7).
  - exact goalMouth_reachable.
  - reflexivity.
  - reflexivity.
  - simpl. lia.
  - simpl. lia.
  - simpl. lia.
  - simpl. lia.
Defined.

Lemma heartbeat_without_bodies_witness :
  @onHeartbeat sampleEntities (1 # 60) 10 busyScript clearedWorld
  = Some (tt, @preStep sampleEntities clearedWorld, []) /\
  map P2.position (heap (@preStep sampleEntities clearedWorld))
  = map P2.position (heap clearedWorld).
Proof.
  apply (@heartbeat_without_bodies sampleEntities (1 # 60) 10 busyScript
           clearedWorld).
  reflexivity.
Defined.

Lemma reset_direction_by_identity_witness :
  exists w' v,
    @reset sampleEntities (Some foreignLeft) goalMouth = Some (tt, w', []) /\
    (P2.velocity <$> heap w' !! Ball.body (ball goalMouth)) = Some v /\
    (Shared.y v == 0)%Q /\
    (Team.ref foreignLeft = Team.ref (teamLeft goalMouth) ->
     (Shared.x v == BALL_INIT_VELOCITY)%Q) /\
    (Team.ref foreignLeft <> Team.ref (teamLeft goalMouth) ->
     (Shared.x v == - BALL_INIT_VELOCITY)%Q).
Proof.
  apply (@reset_direction_by_identity sampleEntities goalMouth foreignLeft).
  exact goalMouth_reachable.
Defined.

Lemma reset_twice_witness :
  exists w',
    @reset sampleEntities (Some (teamRight goalMouth)) goalMouth
    = Some (tt, w', []) /\
    @reset sampleEntities (Some (teamRight goalMouth)) w' = Some (tt, w', []).
Proof.
  apply (@reset_twice sampleEntities goalMouth (Some (teamRight goalMouth))).
  exact goalMouth_reachable.
Defined.

Lemma sameIdWorld_built :
  @constructor sampleEntities "p" "p" = Some (sameIdWorld, []).
Proof. vm_compute. reflexivity. Qed.

Lemma same_id_never_ready_witness :
  exists w' out', setPlayerReady "p" sameIdWorld = Some (false, w', out').
Proof.
  apply (@same_id_never_ready sampleEntities "p" [] "p" sameIdWorld
           sameIdWorld [] []).
  - exact sameIdWorld_built.
  - reflexivity.
Defined.



Lemma reference_integrity_witness :
  NoDup (entityBodies clearedWorld) /\
  Forall (fun b => is_Some (heap clearedWorld !! b))
         (entityBodies clearedWorld) /\
  P2.beginContact (p2World clearedWorld) = true /\
  (populated clearedWorld \/ cleared clearedWorld).
Proof.
  apply (@reference_integrity sampleEntities clearedWorld).
  exists "p1", "p2",
    [CallOnHeartbeat (1 # 60) 10 [P2.Integrate drive]; CallClear],
    sampleWorld, [], [].
  split; vm_compute; reflexivity.
Defined.

Lemma addGoals_geometry_witness :
  exists tL bL kL sL tR bR kR sR : Shared.Vector2D,
    goalLayout (teamLeft sampleWorld) emptyArena
    = [Some tL; Some bL; Some kL; Some sL] /\
    goalLayout (teamRight sampleWorld) emptyArena
    = [Some tR; Some bR; Some kR; Some sR] /\
    Forall2 mirrored (goalLayout (teamLeft sampleWorld) emptyArena)
            (goalLayout (teamRight sampleWorld) emptyArena) /\
    (Shared.x kL < Shared.x sL /\ Shared.x sL < Shared.x tL /\
     Shared.x tL == Shared.x bL /\
     Shared.x tL < Shared.width GAME_SIZE / 2)%Q /\
    (Shared.x tR < Shared.x sR /\ Shared.x sR < Shared.x kR /\
     Shared.x tR == Shared.x bR /\
     Shared.width GAME_SIZE / 2 < Shared.x tR)%Q /\
    (Shared.y tL < Shared.y sL /\ Shared.y sL < Shared.y bL /\
     Shared.y sL == Shared.y kL /\
     Shared.y tL + Shared.y bL == 2 * Shared.y sL)%Q.
Proof.
  apply (addGoals_geometry (teamLeft sampleWorld) (teamRight sampleWorld)
           emptyArena emptyArena); reflexivity.
Defined.
